(** * amalgamate_txt_to_gdoc: a shallow embedding and its properties

    The program gathers text files below a directory, joins them under
    headers and separators, cuts the text in chunks and appends the chunks
    to a freshly created remote document.

    Python values are modelled as follows.
    - [str] is a list of Unicode code points ([N]); [len], slicing and
      concatenation are the list operations.
    - [int] is [Z].
    - A call that may raise returns a [result]; exceptions carry their
      class and the text of [str(e)].
    - The local file system read by the Collector and the Assembler is a
      snapshot record ([filesystem]).
    - Calls to the credential library and the remote service are nodes of
      a program tree ([prog]) run against an arbitrary environment
      ([oracle]); the run records the calls in order. *)

From Stdlib Require Import List ZArith NArith Lia Bool Ascii Permutation Sorted.
From Stdlib Require Strings.String.
Import ListNotations.
Import String.StringSyntax.

Set Implicit Arguments.

Local Open Scope Z_scope.

(** ** Strings *)

Definition codepoint := N.
Definition str := list codepoint.

(** A literal of the source, with code points below 256. *)
Definition lit (s : String.string) : str :=
  List.map N_of_ascii (String.list_ascii_of_string s).

Arguments lit s%_string_scope.

Definition NL : codepoint := 10%N.

Definition len {A : Type} (s : list A) : Z := Z.of_nat (List.length s).

(** ** Exceptions and results *)

Inductive exn_class :=
| SystemExit
| KeyboardInterrupt
| FileNotFoundError
| PermissionError
| IsADirectoryError
| OSError
| LookupError
| ValueError
| UnicodeError
| HttpError
| RefreshError
| NotImplementedError
| OtherException.

(** [issubclass(c, Exception)]: [SystemExit] and [KeyboardInterrupt] derive
    from [BaseException] only. *)
Definition is_Exception (c : exn_class) : bool :=
  match c with
  | SystemExit | KeyboardInterrupt => false
  | _ => true
  end.

Record exn := mkExn { exn_cls : exn_class; exn_str : str }.

Inductive result (A : Type) :=
| Ok (a : A)
| Raise (e : exn).

Arguments Ok {A} a.
Arguments Raise {A} e.

Definition rbind {A B : Type} (r : result A) (k : A -> result B) : result B :=
  match r with
  | Ok a => k a
  | Raise e => Raise e
  end.

(** ** Built-ins: [range] and slicing *)

Module Builtins.

(** [len(range(lo, hi, step))] as CPython computes it, for [step <> 0]. *)
Definition range_len (lo hi step : Z) : Z :=
  if 0 <? step then
    if lo <? hi then (hi - lo - 1) / step + 1 else 0
  else
    if hi <? lo then (lo - hi - 1) / (- step) + 1 else 0.

(** [list(range(lo, hi, step))]; a zero step raises [ValueError]. *)
Definition range (lo hi step : Z) : result (list Z) :=
  if step =? 0 then
    Raise (mkExn ValueError (lit "range() arg 3 must not be zero"))
  else
    Ok (List.map (fun k => lo + Z.of_nat k * step)
                 (seq 0 (Z.to_nat (range_len lo hi step)))).

(** The clamping of one slice bound (step 1): a negative bound counts from
    the end, and the outcome is kept within [0 .. len]. *)
Definition adjust_index (n i : Z) : Z :=
  if i <? 0 then (if i + n <? 0 then 0 else i + n)
  else if n <=? i then n else i.

(** [s[i:j]]. *)
Definition slice {A : Type} (s : list A) (i j : Z) : list A :=
  let start := adjust_index (len s) i in
  let stop := adjust_index (len s) j in
  if start <? stop
  then firstn (Z.to_nat (stop - start)) (skipn (Z.to_nat start) s)
  else [].

End Builtins.

(** ** Chunker *)

Definition DEFAULT_MAX_LEN : Z := 45000.

(** [chunk_text(s, max_len)]:
    [[s[i : i + max_len] for i in range(0, len(s), max_len)] if s else []]. *)
Definition chunk_text (s : str) (max_len : Z) : result (list str) :=
  match s with
  | [] => Ok []
  | _ :: _ =>
      rbind (Builtins.range 0 (len s) max_len)
            (fun idx => Ok (List.map (fun i => Builtins.slice s i (i + max_len)) idx))
  end.


(** The number of chunks: [ceil(len s / L)]. *)
Definition chunk_count (s : str) (L : Z) : nat :=
  Z.to_nat (Builtins.range_len 0 (len s) L).

(** ** More on strings *)

Definition str_eqb (a b : str) : bool :=
  if list_eq_dec N.eq_dec a b then true else false.

(** [a < b] on [str]: lexicographic on code points. *)
Fixpoint str_ltb (a b : str) : bool :=
  match a, b with
  | _, [] => false
  | [], _ :: _ => true
  | x :: a', y :: b' =>
      if (x <? y)%N then true
      else if (y <? x)%N then false
      else str_ltb a' b'
  end.

(** [sep.join(l)]. *)
Fixpoint join (sep : str) (l : list str) : str :=
  match l with
  | [] => []
  | [x] => x
  | x :: l' => x ++ sep ++ join sep l'
  end.

(** [c in s]. *)
Definition contains (c : codepoint) (s : str) : bool :=
  existsb (N.eqb c) s.

(** [s.split(sep)] for a one-character separator. *)
Fixpoint split (sep : codepoint) (s : str) : list str :=
  match s with
  | [] => [[]]
  | c :: s' =>
      if (c =? sep)%N then [] :: split sep s'
      else match split sep s' with
           | [] => [[c]]
           | w :: ws => (c :: w) :: ws
           end
  end.

(** [ch.isspace()], the white space of CPython's Unicode database. *)
Definition isspace (c : codepoint) : bool :=
  ((9 <=? c) && (c <=? 13) || (28 <=? c) && (c <=? 32)
   || (c =? 133) || (c =? 160) || (c =? 5760)
   || (8192 <=? c) && (c <=? 8202)
   || (c =? 8232) || (c =? 8233) || (c =? 8239) || (c =? 8287)
   || (c =? 12288))%N.

Fixpoint dropwhile {A : Type} (f : A -> bool) (l : list A) : list A :=
  match l with
  | [] => []
  | x :: l' => if f x then dropwhile f l' else l
  end.

(** [s.rstrip()]: the white space at the right end is removed. *)
Definition rstrip (s : str) : str := rev (dropwhile isspace (rev s)).

(** The truth value of an optional string: [None] and [""] are false. *)
Definition truthy (o : option str) : bool :=
  match o with
  | None | Some [] => false
  | Some (_ :: _) => true
  end.

(** ** Constants of the script *)

Definition SCOPES : list str :=
  [ lit "https://www.googleapis.com/auth/documents";
    lit "https://www.googleapis.com/auth/drive.file" ].

(** ["\n" + ("-" * 72) + "\n\n"] *)
Definition SEPARATOR : str := [NL] ++ repeat 45%N 72 ++ [NL; NL].

(** ** Paths (pure POSIX paths) *)

Record Path := mkPath { path_abs : bool; path_parts : list str }.

Definition path_eqb (p q : Path) : bool :=
  Bool.eqb (path_abs p) (path_abs q)
  && (if list_eq_dec (list_eq_dec N.eq_dec) (path_parts p) (path_parts q)
      then true else false).

(** [p / name] *)
Definition joinpath (p : Path) (name : str) : Path :=
  mkPath (path_abs p) (path_parts p ++ [name]).

(** [p.as_posix()], which on POSIX is also [str(p)]. *)
Definition as_posix (p : Path) : str :=
  if path_abs p then lit "/" ++ join (lit "/") (path_parts p)
  else match path_parts p with
       | [] => lit "."
       | _ :: _ => join (lit "/") (path_parts p)
       end.

(** [p.name]: the final component, or the empty string. *)
Definition path_name (p : Path) : str := last (path_parts p) [].

Fixpoint prefixb (a b : list str) : bool :=
  match a, b with
  | [], _ => true
  | _ :: _, [] => false
  | x :: a', y :: b' => str_eqb x y && prefixb a' b'
  end.

(** [p.is_relative_to(other)]: [other] is [p] or one of its parents. *)
Definition is_relative_to (p other : Path) : bool :=
  Bool.eqb (path_abs p) (path_abs other)
  && prefixb (path_parts other) (path_parts p).

(** [p.relative_to(other)]; [ValueError] when [p] is not below [other]. *)
Definition relative_to (p other : Path) : result Path :=
  if is_relative_to p other
  then Ok (mkPath false (skipn (List.length (path_parts other)) (path_parts p)))
  else Raise (mkExn ValueError
                (as_posix p ++ lit " is not in the subpath of " ++ as_posix other)).

(** ** The local file system *)

(** A snapshot of the directory tree: regular files and directories with
    their entries in [scandir] order (no symbolic links). *)
Inductive node :=
| File
| Dir (entries : forest)
with forest :=
| Empty
| Entry (name : str) (n : node) (rest : forest).

Scheme node_forest_ind := Induction for node Sort Prop
  with forest_node_ind := Induction for forest Sort Prop.

Definition is_dir_node (n : node) : bool :=
  match n with Dir _ => true | File => false end.

Fixpoint entry_list (es : forest) : list (str * node) :=
  match es with
  | Empty => []
  | Entry name n rest => (name, n) :: entry_list rest
  end.

Fixpoint child (name : str) (es : forest) : option node :=
  match es with
  | Empty => None
  | Entry x n rest => if str_eqb x name then Some n else child name rest
  end.

Fixpoint descend (n : node) (parts : list str) : option node :=
  match parts with
  | [] => Some n
  | x :: parts' =>
      match n with
      | File => None
      | Dir es => match child x es with
                  | Some c => descend c parts'
                  | None => None
                  end
      end
  end.

(** What [Path.read_text] fails with: I/O, lookup and value errors, all of
    which derive from [Exception]. *)
Inductive read_failure :=
| RF_FileNotFound
| RF_Permission
| RF_IsADirectory
| RF_OS
| RF_Lookup
| RF_Value.

Definition class_of_failure (f : read_failure) : exn_class :=
  match f with
  | RF_FileNotFound => FileNotFoundError
  | RF_Permission => PermissionError
  | RF_IsADirectory => IsADirectoryError
  | RF_OS => OSError
  | RF_Lookup => LookupError
  | RF_Value => ValueError
  end.

Record stat_result := mkStat { st_mtime : Z; st_ctime : Z }.

Record filesystem := mkFs {
  (** the tree below [/] *)
  fs_root : node;
  (** [p.resolve()] *)
  fs_resolve : Path -> Path;
  (** [p.read_text(encoding=enc, errors="replace")]: the decoded text, with
      replacement characters where decoding failed, or the failure and its
      [str(e)] *)
  fs_read_text : Path -> str -> str + read_failure * str;
  (** [p.stat()]; the time stamps are integers ordered like the floats *)
  fs_stat : Path -> result stat_result
}.

Definition find_node (fs : filesystem) (p : Path) : option node :=
  descend (fs_root fs) (path_parts p).

(** [p.exists()] for a resolved path. *)
Definition path_exists (fs : filesystem) (p : Path) : bool :=
  match find_node fs p with Some _ => true | None => false end.

Definition read_text (fs : filesystem) (p : Path) (encoding : str) : result str :=
  match fs_read_text fs p encoding with
  | inl text => Ok text
  | inr (f, msg) => Raise (mkExn (class_of_failure f) msg)
  end.

(** ** Recursive globbing (pathlib's selectors) *)

Module Glob.

Inductive part :=
| PTerm                 (* the empty part left by a trailing slash *)
| PRec                  (* [**] *)
| PWild (pat : str)     (* a part with [*], [?] or [[] *)
| PPrec (name : str).   (* a plain name *)

(** The flavour's [parse_parts] on a pattern: the parts between slashes,
    without the empty ones and the dots; rooted patterns are refused. *)
Definition parse_pattern (pattern : str) : result (list str) :=
  match pattern with
  | 47%N :: _ =>
      Raise (mkExn NotImplementedError (lit "Non-relative patterns are unsupported"))
  | _ =>
      Ok (filter (fun x => negb (str_eqb x []) && negb (str_eqb x (lit ".")))
                 (split 47%N pattern)
          ++ (if (last pattern 0 =? 47)%N then [[]] else []))
  end.

Definition is_wildcard_pattern (pat : str) : bool :=
  contains 42%N pat || contains 63%N pat || contains 91%N pat.

(** ["**" in pat] *)
Fixpoint has_double_star (pat : str) : bool :=
  match pat with
  | 42%N :: ((42%N :: _) as rest) => true
  | _ :: rest => has_double_star rest
  | [] => false
  end.

Fixpoint make_selector (parts : list str) : result (list part) :=
  match parts with
  | [] => Ok []
  | pat :: child_parts =>
      if str_eqb pat [] then Ok [PTerm]
      else
        rbind (make_selector child_parts) (fun succ =>
          if str_eqb pat (lit "**") then Ok (PRec :: succ)
          else if has_double_star pat then
            Raise (mkExn ValueError
                     (lit "Invalid pattern: '**' can only be an entire path component"))
          else if is_wildcard_pattern pat then Ok (PWild pat :: succ)
          else Ok (PPrec pat :: succ))
  end.

(** A selector with a successor only looks at directories. *)
Definition dironly (succ : list part) : bool :=
  match succ with [] => false | _ :: _ => true end.

(** The directories below and including [p], parents first. *)
Fixpoint iterate_directories (p : Path) (n : node) : list (Path * forest) :=
  match n with
  | File => []
  | Dir es => (p, es) :: iterate_entries p es
  end
with iterate_entries (p : Path) (es : forest) : list (Path * forest) :=
  match es with
  | Empty => []
  | Entry name n rest =>
      iterate_directories (joinpath p name) n ++ iterate_entries p rest
  end.

(** The [yielded] set of the recursive selector: first occurrences only. *)
Fixpoint dedupe (seen : list Path) (l : list Path) : list Path :=
  match l with
  | [] => []
  | p :: l' =>
      if existsb (path_eqb p) seen then dedupe seen l'
      else p :: dedupe (p :: seen) l'
  end.

Section Select.

(** [fnmatchcase name pat]: the name matches the shell pattern. *)
Variable fnmatchcase : str -> str -> bool.

Fixpoint select (sel : list part) (p : Path) (n : node) : list Path :=
  match sel with
  | [] => [p]
  | PTerm :: _ => [p]
  | PRec :: succ =>
      dedupe []
        (flat_map (fun d => select succ (fst d) (Dir (snd d)))
                  (iterate_directories p n))
  | PWild pat :: succ =>
      match n with
      | File => []
      | Dir es =>
          flat_map
            (fun e =>
               if (negb (dironly succ) || is_dir_node (snd e))
                  && fnmatchcase (fst e) pat
               then select succ (joinpath p (fst e)) (snd e)
               else [])
            (entry_list es)
      end
  | PPrec name :: succ =>
      match n with
      | File => []
      | Dir es =>
          match child name es with
          | Some c =>
              if negb (dironly succ) || is_dir_node c
              then select succ (joinpath p name) c
              else []
          | None => []
          end
      end
  end.

(** [list(directory.rglob(pattern))]: the pattern is selected below [**];
    a start that is not a directory yields nothing. *)
Definition rglob (fs : filesystem) (directory : Path) (pattern : str)
  : result (list Path) :=
  rbind (parse_pattern pattern) (fun pattern_parts =>
  rbind (make_selector (lit "**" :: pattern_parts)) (fun sel =>
  match find_node fs directory with
  | Some (Dir es) => Ok (select sel directory (Dir es))
  | _ => Ok []
  end)).

End Select.

End Glob.

(** ** [list.sort(key=...)] *)

Module Sort.

Section Keyed.

Context {K X : Type}.
Variable lt : K -> K -> bool.

(** [x] is put before the first element whose key is not smaller. *)
Fixpoint insert (kx : K * X) (l : list (K * X)) : list (K * X) :=
  match l with
  | [] => [kx]
  | ky :: l' => if lt (fst ky) (fst kx) then ky :: insert kx l' else kx :: l
  end.

Definition sort_keyed (l : list (K * X)) : list (K * X) :=
  fold_right insert [] l.

(** The keys are computed first, in list order. *)
Fixpoint decorate (key : X -> result K) (l : list X) : result (list (K * X)) :=
  match l with
  | [] => Ok []
  | x :: l' =>
      rbind (key x) (fun k =>
      rbind (decorate key l') (fun kxs => Ok ((k, x) :: kxs)))
  end.

(** A stable sort on the keys alone. *)
Definition sort_by_key (key : X -> result K) (l : list X) : result (list X) :=
  rbind (decorate key l) (fun kxs => Ok (List.map snd (sort_keyed kxs))).

End Keyed.

End Sort.

(** Pairs of a key and an element where the key is the element's. *)
Definition decorated {K X : Type} (f : X -> K) (l : list (K * X)) : Prop :=
  Forall (fun e => fst e = f (snd e)) l.

(** ** File Collector *)

Section Collector.

Variable fnmatchcase : str -> str -> bool.

(** [str.lower] *)
Variable lower : str -> str.

Definition name_key (p : Path) : str := lower (path_name p).

Definition gather_text_files (fs : filesystem)
    (directory : Path) (pattern : str) (sort : str) : result (list Path) :=
  rbind (Glob.rglob fnmatchcase fs directory pattern) (fun files =>
  if str_eqb sort (lit "name") then
    Sort.sort_by_key str_ltb (fun p => Ok (name_key p)) files
  else if str_eqb sort (lit "mtime") then
    Sort.sort_by_key Z.ltb
      (fun p => rbind (fs_stat fs p) (fun st => Ok (st_mtime st))) files
  else if str_eqb sort (lit "ctime") then
    Sort.sort_by_key Z.ltb
      (fun p => rbind (fs_stat fs p) (fun st => Ok (st_ctime st))) files
  else Ok files).

End Collector.

(** ** Text Assembler *)

Definition error_marker (p : Path) (e : exn) : str :=
  lit "[Error reading " ++ as_posix p ++ lit ": " ++ exn_str e ++ lit "]" ++ [NL].

(** [try: return p.read_text(...)] / [except Exception as e: return f"..."] *)
Definition read_file_text (fs : filesystem) (p : Path) (encoding : str)
  : result str :=
  match read_text fs p encoding with
  | Ok text => Ok text
  | Raise e =>
      if is_Exception (exn_cls e) then Ok (error_marker p e) else Raise e
  end.

Definition header_of (rel : Path) : str :=
  lit "### " ++ as_posix rel ++ lit " ###" ++ [NL; NL].

(** The loop of [build_combined_text]; [parts] is the list built so far. *)
Fixpoint build_parts (fs : filesystem) (base_dir : Path) (encoding : str)
    (files : list Path) (parts : list str) : result (list str) :=
  match files with
  | [] => Ok parts
  | f :: rest =>
      rbind (if is_relative_to f base_dir then relative_to f base_dir else Ok f)
        (fun rel =>
      let header := header_of rel in
      rbind (read_file_text fs f encoding) (fun body =>
      build_parts fs base_dir encoding rest (parts ++ [header ++ body ++ SEPARATOR])))
  end.

Definition build_combined_text (fs : filesystem)
    (files : list Path) (base_dir : Path) (encoding : str) : result str :=
  rbind (build_parts fs base_dir encoding files [])
        (fun parts => Ok (rstrip (concat parts) ++ [NL])).

(** ** Calls to the outside: credentials and the remote service *)

(** What the script observes of a [Credentials] object. *)
Record credentials := mkCreds {
  cred_valid : bool;
  cred_expired : bool;
  cred_refresh_token : option str;
  cred_to_json : str
}.

(** [{"endOfSegmentLocation": {}}] is [EndOfSegmentLocation None]. *)
Inductive location :=
| EndOfSegmentLocation (segment_id : option str)
| Location (index : Z).

Inductive docs_request :=
| InsertText (where_ : location) (text : str).

Record batch_body := mkBody { requests : list docs_request }.

Inductive call :=
| OsPathExists (name : str)
| FromAuthorizedUserFile (name : str) (scopes : list str)
| CredsRefresh (creds : credentials)
| FromClientSecretsFile (name : str) (scopes : list str)
| RunLocalServer (port : Z)
| WriteTextFile (name : str) (content : str)
| Build (service version : str) (creds : credentials)
| DocumentsCreate (title : str)
| DocumentsBatchUpdate (document_id : str) (body : batch_body)
| PrintLine (line : str).

(** The value a call returns to the script. *)
Definition resp (c : call) : Type :=
  match c with
  | OsPathExists _ => bool
  | FromAuthorizedUserFile _ _ => credentials
  | CredsRefresh _ => credentials   (* the object after its in-place refresh *)
  | FromClientSecretsFile _ _ => unit
  | RunLocalServer _ => credentials
  | WriteTextFile _ _ => unit
  | Build _ _ _ => unit
  | DocumentsCreate _ => str        (* [doc["documentId"]] *)
  | DocumentsBatchUpdate _ _ => unit
  | PrintLine _ => unit
  end.

Inductive prog (A : Type) :=
| Ret (a : A)
| Throw (e : exn)
| Do (c : call) (k : resp c -> prog A).

Arguments Ret {A} a.
Arguments Throw {A} e.
Arguments Do {A} c k.

Fixpoint pbind {A B : Type} (p : prog A) (f : A -> prog B) : prog B :=
  match p with
  | Ret a => f a
  | Throw e => Throw e
  | Do c k => Do c (fun x => pbind (k x) f)
  end.

Definition perform (c : call) : prog (resp c) := Do c (fun x => Ret x).

Definition lift {A : Type} (r : result A) : prog A :=
  match r with
  | Ok a => Ret a
  | Raise e => Throw e
  end.

Declare Scope prog_scope.
Delimit Scope prog_scope with prog.
Notation "x <- p ;; q" := (pbind p (fun x => q))
  (at level 61, p at next level, right associativity) : prog_scope.
Notation "p ;; q" := (pbind p (fun _ => q))
  (at level 61, right associativity) : prog_scope.

(** [for x in l: body(x)] *)
Fixpoint for_each {X : Type} (l : list X) (body : X -> prog unit) : prog unit :=
  match l with
  | [] => Ret tt
  | x :: l' => (body x ;; for_each l' body)%prog
  end.

(** The environment answers a call knowing the calls made before it; a
    call it makes fail raises in the script. *)
Definition oracle := list call -> forall c : call, result (resp c).

(** Running a program: the calls issued, in order, and the outcome. *)
Fixpoint run_from {A : Type} (o : oracle) (tr : list call) (p : prog A)
  : list call * result A :=
  match p with
  | Ret a => (tr, Ok a)
  | Throw e => (tr, Raise e)
  | Do c k =>
      match o tr c with
      | Ok x => run_from o (tr ++ [c]) (k x)
      | Raise e => (tr ++ [c], Raise e)
      end
  end.

Definition run {A : Type} (o : oracle) (p : prog A) : list call * result A :=
  run_from o [] p.

(** The status of the process: an uncaught exception, [SystemExit] with a
    message included, ends it with status 1. *)
Definition exit_status (r : result unit) : Z :=
  match r with
  | Ok _ => 0
  | Raise _ => 1
  end.

(** ** Credential Provider *)

Definition TOKEN_JSON : str := lit "token.json".
Definition CREDENTIALS_JSON : str := lit "credentials.json".

Local Open Scope prog_scope.

(** The [else] branch of [get_credentials]: the interactive flow. *)
Definition interactive_flow : prog credentials :=
  present <- perform (OsPathExists CREDENTIALS_JSON) ;;
  if negb present then
    Throw (mkExn FileNotFoundError
             (lit "credentials.json not found. Download OAuth client credentials from "
              ++ lit "Google Cloud Console and place the file next to this script."))
  else
    perform (FromClientSecretsFile CREDENTIALS_JSON SCOPES) ;;
    perform (RunLocalServer 0).

Definition get_credentials : prog credentials :=
  present <- perform (OsPathExists TOKEN_JSON) ;;
  creds <- (if present
            then c <- perform (FromAuthorizedUserFile TOKEN_JSON SCOPES) ;; Ret (Some c)
            else Ret None) ;;
  match creds with
  | Some c =>
      if negb (cred_valid c) then
        creds' <- (if cred_expired c && truthy (cred_refresh_token c)
                   then perform (CredsRefresh c)
                   else interactive_flow) ;;
        perform (WriteTextFile TOKEN_JSON (cred_to_json creds')) ;;
        Ret creds'
      else Ret c
  | None =>
      creds' <- interactive_flow ;;
      perform (WriteTextFile TOKEN_JSON (cred_to_json creds')) ;;
      Ret creds'
  end.

(** ** Document Publisher *)

Definition create_google_doc (title : str) (creds : credentials) : prog str :=
  perform (Build (lit "docs") (lit "v1") creds) ;;
  perform (DocumentsCreate title).

Definition insert_at_end (piece : str) : batch_body :=
  mkBody [InsertText (EndOfSegmentLocation None) piece].

Definition append_text_to_doc (doc_id : str) (text : str) (creds : credentials)
  : prog unit :=
  perform (Build (lit "docs") (lit "v1") creds) ;;
  pieces <- lift (chunk_text text DEFAULT_MAX_LEN) ;;
  for_each pieces
    (fun piece => perform (DocumentsBatchUpdate doc_id (insert_at_end piece))).

(** ** The command line *)

Record arguments := mkArgs {
  arg_directory : Path;
  arg_pattern : str;
  arg_title : str;
  arg_encoding : str;
  arg_sort : str;
  arg_recurse : bool
}.

Definition effective_pattern (args : arguments) : str :=
  if arg_recurse args && str_eqb (arg_pattern args) (lit "*.txt")
  then lit "**/*.txt"
  else arg_pattern args.

Section Main.

Variable fnmatchcase : str -> str -> bool.
Variable lower : str -> str.

Definition main (fs : filesystem) (args : arguments) : prog unit :=
  let base_dir := fs_resolve fs (arg_directory args) in
  if negb (path_exists fs base_dir) then
    Throw (mkExn SystemExit (lit "Directory not found: " ++ as_posix base_dir))
  else
    let pattern := effective_pattern args in
    files <- lift (gather_text_files fnmatchcase lower fs base_dir pattern
                     (arg_sort args)) ;;
    match files with
    | [] => Throw (mkExn SystemExit (lit "No files matched the pattern."))
    | _ :: _ =>
        combined <- lift (build_combined_text fs files base_dir (arg_encoding args)) ;;
        creds <- get_credentials ;;
        doc_id <- create_google_doc (arg_title args) creds ;;
        append_text_to_doc doc_id combined creds ;;
        perform (PrintLine (lit "Created Google Doc: https://docs.google.com/document/d/"
                        ++ doc_id ++ lit "/edit"))
    end.

End Main.

Local Close Scope prog_scope.

(** ** The Publisher's requests, as the specification words them *)

(** One update request: a single [insertText] at the end of the document. *)
Definition update_request (doc_id piece : str) : call :=
  DocumentsBatchUpdate doc_id (mkBody [InsertText (EndOfSegmentLocation None) piece]).

(** ** The Credential Provider's cases, as the specification words them *)

(** The interactive flow is required: there is no stored credential, or
    the stored one is invalid and is not an expired credential with a
    refresh token. [before] lists the calls made up to that point. *)
Definition flow_required (o : oracle) (before : list call) : Prop :=
  (o [] (OsPathExists TOKEN_JSON) = Ok false
   /\ before = [OsPathExists TOKEN_JSON])
  \/ (exists c,
        o [] (OsPathExists TOKEN_JSON) = Ok true
        /\ o [OsPathExists TOKEN_JSON] (FromAuthorizedUserFile TOKEN_JSON SCOPES) = Ok c
        /\ cred_valid c = false
        /\ cred_expired c && truthy (cred_refresh_token c) = false
        /\ before = [OsPathExists TOKEN_JSON;
                     FromAuthorizedUserFile TOKEN_JSON SCOPES]).

Definition MISSING_SECRETS : exn :=
  mkExn FileNotFoundError
    (lit "credentials.json not found. Download OAuth client credentials from Google Cloud Console and place the file next to this script.").

(** The number of characters an update request inserts. *)
Definition request_size (c : call) : option Z :=
  match c with
  | DocumentsBatchUpdate _ (mkBody [InsertText _ text]) => Some (len text)
  | _ => None
  end.

(** ** The Collector's matches, as the specification words them *)

(** The path [rel] below [base]. *)
Definition below (base : Path) (rel : list str) : Path :=
  mkPath (path_abs base) (path_parts base ++ rel).

(** A name matches a one-component pattern: by the shell rules when the
    pattern has wildcards, by equality otherwise. *)
Definition name_matches (fnmatchcase : str -> str -> bool) (pat name : str) : bool :=
  if Glob.is_wildcard_pattern pat then fnmatchcase name pat else str_eqb pat name.

(** The selector of a one-component pattern. *)
Definition final_part (pat : str) : Glob.part :=
  if Glob.is_wildcard_pattern pat then Glob.PWild pat else Glob.PPrec pat.

(** Every [stat] succeeds. *)
Definition stat_succeeds (fs : filesystem) : Prop :=
  forall p, exists st, fs_stat fs p = Ok st.

(** ** The Assembler's output, as the specification words it *)

(** The path shown in a header: relative to the base directory when the
    file is below it, else the file's own path. *)
Definition spec_shown_path (f base_dir : Path) : Path :=
  if is_relative_to f base_dir
  then mkPath false (skipn (List.length (path_parts base_dir)) (path_parts f))
  else f.

(** The body of a file: its text, or the marker of the read failure. *)
Definition spec_body (fs : filesystem) (f : Path) (encoding : str) : str :=
  match fs_read_text fs f encoding with
  | inl text => text
  | inr (_, message) =>
      lit "[Error reading " ++ as_posix f ++ lit ": " ++ message ++ lit "]" ++ [NL]
  end.

Definition spec_contribution (fs : filesystem) (base_dir : Path) (encoding : str)
    (f : Path) : str :=
  lit "### " ++ as_posix (spec_shown_path f base_dir) ++ lit " ###" ++ [NL; NL]
  ++ spec_body fs f encoding ++ SEPARATOR.

(** ** Sample environments *)

Module Sample.

Definition base : Path := mkPath true [lit "docs"].
Definition a_txt : Path := joinpath base (lit "a.txt").
Definition b_txt : Path := joinpath base (lit "b.txt").

Definition tree : node :=
  Dir (Entry (lit "docs")
         (Dir (Entry (lit "a.txt") File (Entry (lit "b.txt") File Empty)))
         Empty).

Definition no_such_file : str + read_failure * str :=
  inr (RF_FileNotFound, lit "[Errno 2] No such file or directory").

(** [/docs] holds [a.txt] with content [hello] and [b.txt] with [world]. *)
Definition fs : filesystem :=
  mkFs tree (fun p => p)
    (fun p _ =>
       if path_eqb p a_txt then inl (lit "hello")
       else if path_eqb p b_txt then inl (lit "world")
       else no_such_file)
    (fun _ => Ok (mkStat 0 0)).

(** The same directory with [a.txt] unreadable. *)
Definition fs_denied : filesystem :=
  mkFs tree (fun p => p)
    (fun p _ =>
       if path_eqb p a_txt
       then inr (RF_Permission, lit "[Errno 13] Permission denied: '/docs/a.txt'")
       else if path_eqb p b_txt then inl (lit "world")
       else no_such_file)
    (fun _ => Ok (mkStat 0 0)).

Definition utf8 : str := lit "utf-8".

(** [/docs] with sub-directories: [c.txt], [z/a.txt], [a/B.txt] and
    [a/a.txt], the directory [z] being listed before [a]. *)
Definition deep_tree : node :=
  Dir (Entry (lit "docs")
         (Dir (Entry (lit "z") (Dir (Entry (lit "a.txt") File Empty))
              (Entry (lit "a")
                 (Dir (Entry (lit "B.txt") File (Entry (lit "a.txt") File Empty)))
              (Entry (lit "c.txt") File Empty))))
         Empty).

Definition deep_fs : filesystem :=
  mkFs deep_tree (fun p => p) (fun _ _ => inl (lit "text"))
    (fun _ => Ok (mkStat 0 0)).

(** A shell-pattern matcher with [*] and [?], in the argument order of
    [fnmatchcase(name, pat)]. *)
Fixpoint wild_match (pat name : str) : bool :=
  match pat with
  | [] => match name with [] => true | _ :: _ => false end
  | c :: pat' =>
      if (c =? 42)%N then
        (fix star (n : str) : bool :=
           wild_match pat' n
           || match n with [] => false | _ :: n' => star n' end) name
      else
        match name with
        | [] => false
        | d :: name' => ((c =? 63) || (c =? d))%N && wild_match pat' name'
        end
  end.

Definition fnmatchcase (name pat : str) : bool := wild_match pat name.

(** [str.lower] on the ASCII letters. *)
Definition lower (s : str) : str :=
  List.map (fun c => if ((65 <=? c) && (c <=? 90))%N then (c + 32)%N else c) s.

(** An environment described by a few switches. *)
Record switches := mkSwitches {
  token_present : bool;
  stored : credentials;
  refreshed : credentials;
  secrets_present : bool;
  granted : credentials;
  (** the update request that fails, counted from 0 *)
  failing_update : option nat
}.

Definition is_update (c : call) : bool :=
  match c with DocumentsBatchUpdate _ _ => true | _ => false end.

Definition quota_exceeded : exn := mkExn HttpError (lit "<HttpError 429>").

Definition environment (sw : switches) : oracle :=
  fun tr c =>
    match c as c0 return result (resp c0) with
    | OsPathExists name =>
        Ok (if str_eqb name TOKEN_JSON then token_present sw
            else if str_eqb name CREDENTIALS_JSON then secrets_present sw
            else false)
    | FromAuthorizedUserFile _ _ => Ok (stored sw)
    | CredsRefresh _ => Ok (refreshed sw)
    | FromClientSecretsFile _ _ => Ok tt
    | RunLocalServer _ => Ok (granted sw)
    | WriteTextFile _ _ => Ok tt
    | Build _ _ _ => Ok tt
    | DocumentsCreate _ => Ok (lit "doc-1")
    | DocumentsBatchUpdate _ _ =>
        match failing_update sw with
        | None => Ok tt
        | Some n =>
            if (List.length (filter is_update tr) =? n)%nat
            then Raise quota_exceeded else Ok tt
        end
    | PrintLine _ => Ok tt
    end.

Definition fresh : credentials := mkCreds true false (Some (lit "r1")) (lit "{fresh}").
Definition stale : credentials := mkCreds false true (Some (lit "r1")) (lit "{stale}").
Definition revoked : credentials := mkCreds false false None (lit "{revoked}").

Definition refused : exn := mkExn RefreshError (lit "invalid_grant: Token has been expired or revoked.").

(** An environment in which the calls for which [fails] holds raise
    [refused] and the others answer as [environment sw]. *)
Definition failing (fails : call -> bool) (sw : switches) : oracle :=
  fun tr c => if fails c then Raise refused else environment sw tr c.

Definition is_load (c : call) : bool :=
  match c with FromAuthorizedUserFile _ _ => true | _ => false end.
Definition is_refresh (c : call) : bool :=
  match c with CredsRefresh _ => true | _ => false end.
Definition is_consent (c : call) : bool :=
  match c with RunLocalServer _ => true | _ => false end.

(** A valid token is cached. *)
Definition cached : switches := mkSwitches true fresh fresh true fresh None.
(** The cached token has expired and can be refreshed. *)
Definition expired : switches := mkSwitches true stale fresh true fresh None.
(** Nothing is cached and the client secrets are missing. *)
Definition unprovisioned : switches := mkSwitches false fresh fresh false fresh None.
(** Nothing is cached; the client secrets are there. *)
Definition first_run : switches := mkSwitches false fresh fresh true fresh None.
(** The second update request is refused. *)
Definition throttled : switches := mkSwitches true fresh fresh true fresh (Some 1%nat).

(** The deep tree with time stamps: the modification time of a path is
    the length of its text, the change time is 0. *)
Definition timed_fs : filesystem :=
  mkFs deep_tree (fun p => p) (fun _ _ => inl (lit "text"))
    (fun p => Ok (mkStat (len (as_posix p)) 0)).

Definition vanished : exn :=
  mkExn FileNotFoundError (lit "[Errno 2] No such file or directory: '/docs/z/a.txt'").

(** The deep tree where [z/a.txt] is gone by the time it is examined. *)
Definition racing_fs : filesystem :=
  mkFs deep_tree (fun p => p) (fun _ _ => inl (lit "text"))
    (fun p => if path_eqb p (below base [lit "z"; lit "a.txt"])
              then Raise vanished
              else Ok (mkStat 0 0)).

Definition args_txt : arguments :=
  mkArgs base (lit "*.txt") (lit "Amalgamated Text Files") utf8 (lit "name") false.

(** The arguments that name the file [a.txt] as the directory. *)
Definition args_file : arguments :=
  mkArgs a_txt (lit "*.txt") (lit "Amalgamated Text Files") utf8 (lit "name") false.

(** The arguments that name a directory that does not exist. *)
Definition args_nowhere : arguments :=
  mkArgs (mkPath true [lit "nowhere"]) (lit "*.txt") (lit "Amalgamated Text Files")
    utf8 (lit "name") false.

Definition args_md : arguments :=
  mkArgs base (lit "*.md") (lit "Amalgamated Text Files") utf8 (lit "name") false.

End Sample.

(** ** Observations on runs *)

(** A call to the document service. *)
Definition is_docs_call (c : call) : bool :=
  match c with
  | Build _ _ _ | DocumentsCreate _ | DocumentsBatchUpdate _ _ => true
  | _ => false
  end.

(** A call of the interactive flow or a refresh. *)
Definition is_write (c : call) : bool :=
  match c with WriteTextFile _ _ => true | _ => false end.

(** The text a call inserts in the document. *)
Definition inserted_by (c : call) : str :=
  match c with
  | DocumentsBatchUpdate _ (mkBody reqs) =>
      concat (List.map (fun r => match r with InsertText _ text => text end) reqs)
  | _ => []
  end.

(** The text inserted by the calls of a run, in order. *)
Definition inserted_text (tr : list call) : str :=
  concat (List.map inserted_by tr).

(** Every call the program can make satisfies [P]. *)
Fixpoint only_calls {A : Type} (P : call -> Prop) (p : prog A) : Prop :=
  match p with
  | Ret _ | Throw _ => True
  | Do c k => P c /\ forall x, only_calls P (k x)
  end.

(** A call the Credential Provider has reason to make: the existence tests
    and accesses of its two files, a refresh, the consent flow on a free
    port. *)
Definition credential_call (c : call) : bool :=
  match c with
  | OsPathExists name => str_eqb name TOKEN_JSON || str_eqb name CREDENTIALS_JSON
  | FromAuthorizedUserFile name _ => str_eqb name TOKEN_JSON
  | CredsRefresh _ => true
  | FromClientSecretsFile name _ => str_eqb name CREDENTIALS_JSON
  | RunLocalServer port => port =? 0
  | WriteTextFile name _ => str_eqb name TOKEN_JSON
  | Build _ _ _ | DocumentsCreate _ | DocumentsBatchUpdate _ _ | PrintLine _ => false
  end.

Definition is_print (c : call) : bool :=
  match c with PrintLine _ => true | _ => false end.

(** The line [main] prints for a document. *)
Definition document_url (doc_id : str) : str :=
  lit "Created Google Doc: https://docs.google.com/document/d/" ++ doc_id ++ lit "/edit".

(** * Properties *)

(** ** Slices and chunks *)

Section SliceFacts.

Context {A : Type}.
Implicit Types (s : list A).

Lemma firstn_plus (a b : nat) s :
  firstn (a + b) s = firstn a s ++ firstn b (skipn a s).
Proof.
  revert s. induction a as [|a IH]; intros s; simpl.
  - reflexivity.
  - destruct s as [|x s]; simpl.
    + now rewrite firstn_nil.
    + now rewrite IH.
Qed.

Lemma skipn_plus (a b : nat) s : skipn (a + b) s = skipn b (skipn a s).
Proof.
  revert s. induction a as [|a IH]; intros s; simpl.
  - reflexivity.
  - destruct s as [|x s]; simpl.
    + now rewrite skipn_nil.
    + apply IH.
Qed.

(** Inside the string a slice is a [firstn] of a [skipn]. *)
Lemma slice_window s (i w : Z) :
  0 <= i < len s -> 0 < w ->
  Builtins.slice s i (i + w) = firstn (Z.to_nat w) (skipn (Z.to_nat i) s).
Proof.
  intros Hi Hw. unfold Builtins.slice, Builtins.adjust_index.
  destruct (Z.ltb_spec i 0) as [?|_]; [lia|].
  destruct (Z.leb_spec (len s) i) as [?|_]; [lia|].
  destruct (Z.ltb_spec (i + w) 0) as [?|_]; [lia|].
  destruct (Z.leb_spec (len s) (i + w)) as [Hover|Hin].
  - destruct (Z.ltb_spec i (len s)) as [_|?]; [|lia].
    rewrite !firstn_all2; trivial; rewrite length_skipn; unfold len in *; lia.
  - destruct (Z.ltb_spec i (i + w)) as [_|?]; [|lia].
    f_equal. lia.
Qed.

(** The windows of width [w] starting at [a*w], [(a+1)*w], ... laid end to
    end give the corresponding stretch of the string. *)
Lemma concat_windows (w : nat) s (n a : nat) :
  concat (List.map (fun k => firstn w (skipn (k * w)%nat s)) (seq a n))
  = firstn (n * w) (skipn (a * w) s).
Proof.
  revert a. induction n as [|n IH]; intros a; simpl.
  - reflexivity.
  - rewrite IH, firstn_plus. do 2 f_equal.
    rewrite <- skipn_plus. f_equal. lia.
Qed.

End SliceFacts.

Lemma chunk_count_bounds (s : str) (L : Z) :
  s <> [] -> 1 <= L ->
  let n := Z.of_nat (chunk_count s L) in
  1 <= n /\ (n - 1) * L < len s <= n * L.
Proof.
  intros Hs HL. unfold chunk_count, Builtins.range_len.
  assert (0 < len s) by (unfold len; destruct s; [congruence|simpl; lia]).
  destruct (Z.ltb_spec 0 L) as [_|?]; [|lia].
  destruct (Z.ltb_spec 0 (len s)) as [_|?]; [|lia].
  replace (len s - 0 - 1) with (len s - 1) by lia.
  pose proof (Z.div_pos (len s - 1) L ltac:(lia) ltac:(lia)) as Hq.
  pose proof (Z.mul_div_le (len s - 1) L ltac:(lia)) as Hlo.
  pose proof (Z.mul_succ_div_gt (len s - 1) L ltac:(lia)) as Hhi.
  cbv zeta. rewrite Z2Nat.id by lia. nia.
Qed.

(** For a positive bound the chunks are the windows of width [L]. *)
Lemma chunk_text_windows (s : str) (L : Z) :
  s <> [] -> 1 <= L ->
  chunk_text s L
  = Ok (List.map (fun k => firstn (Z.to_nat L) (skipn (k * Z.to_nat L)%nat s))
                 (seq 0 (chunk_count s L))).
Proof.
  intros Hs HL. pose proof (chunk_count_bounds Hs HL) as [Hn [Hlo Hhi]].
  unfold chunk_text. destruct s as [|c s']; [congruence|].
  set (s := c :: s') in *. unfold Builtins.range.
  destruct (Z.eqb_spec L 0) as [?|_]; [lia|]. simpl rbind.
  fold (chunk_count s L). f_equal. rewrite map_map.
  apply map_ext_in. intros k Hk. apply in_seq in Hk.
  rewrite slice_window; [|nia|lia].
  do 2 f_equal. nia.
Qed.

(** C1. For every string and every bound [L >= 1], [chunk_text] returns
    chunks whose concatenation in order is the string itself; the chunk
    number [k] is the stretch of the string that starts at offset [k * L],
    so the chunks are consecutive and do not overlap; and no chunk is
    returned exactly when the string is empty. *)
Theorem chunk_text_concat (s : str) (L : Z) :
  1 <= L ->
  exists cs,
    chunk_text s L = Ok cs
    /\ concat cs = s
    /\ (forall k c, nth_error cs k = Some c ->
          c = firstn (Z.to_nat L) (skipn (k * Z.to_nat L) s))
    /\ (cs = [] <-> s = []).
Proof.
  intros HL. destruct s as [|c0 s0] eqn:Es.
  - exists []. repeat split; trivial. intros [|k] c; discriminate.
  - rewrite <- Es. assert (Hs : s <> []) by (rewrite Es; discriminate).
    pose proof (chunk_count_bounds Hs HL) as [Hn [_ Hhi]].
    eexists. split; [apply (chunk_text_windows Hs HL)|]. split; [|split].
    + rewrite concat_windows. simpl skipn. apply firstn_all2.
      unfold len in Hhi. nia.
    + intros k c Hk. rewrite nth_error_map in Hk.
      rewrite nth_error_seq in Hk.
      destruct (k <? chunk_count s L)%nat; [|discriminate].
      simpl in Hk. now injection Hk as <-.
    + split; [|congruence]. intros Hnil. apply (f_equal (@List.length _)) in Hnil.
      rewrite length_map, length_seq in Hnil. simpl in Hnil. lia.
Qed.

Lemma chunk_text_concat_witness :
  exists cs,
    chunk_text (lit "abcdefg") 3 = Ok cs
    /\ concat cs = lit "abcdefg"
    /\ (forall k c, nth_error cs k = Some c ->
          c = firstn (Z.to_nat 3) (skipn (k * Z.to_nat 3) (lit "abcdefg")))
    /\ (cs = [] <-> lit "abcdefg" = []).
Proof. apply (@chunk_text_concat (lit "abcdefg") 3). lia. Defined.

(** The empty string, one character, and a length that is a multiple of
    the bound. *)
Example chunk_text_empty : chunk_text [] 3 = Ok [].
Proof. reflexivity. Qed.

Example chunk_text_single : chunk_text (lit "a") 3 = Ok [lit "a"].
Proof. reflexivity. Qed.

Example chunk_text_boundary :
  chunk_text (lit "abcdef") 3 = Ok [lit "abc"; lit "def"].
Proof. reflexivity. Qed.

Example chunk_text_ragged :
  chunk_text (lit "abcdefg") 3 = Ok [lit "abc"; lit "def"; lit "g"].
Proof. reflexivity. Qed.

(** C2. For every non-empty string and every bound [L >= 1], the chunks
    are a run of chunks of length exactly [L] followed by one last chunk
    whose length is between 1 and [L]: every chunk has at most [L]
    characters and only the last may be shorter. *)
Theorem chunk_text_lengths (s : str) (L : Z) :
  s <> [] -> 1 <= L ->
  exists full last_chunk,
    chunk_text s L = Ok (full ++ [last_chunk])
    /\ Forall (fun c => len c = L) full
    /\ 1 <= len last_chunk <= L.
Proof.
  intros Hs HL. pose proof (chunk_count_bounds Hs HL) as [Hn [Hlo Hhi]].
  rewrite (chunk_text_windows Hs HL).
  destruct (chunk_count s L) as [|n] eqn:En; [simpl in Hn; lia|].
  rewrite seq_S, map_app. simpl map. do 2 eexists. split; [reflexivity|].
  unfold len in *. split.
  - apply Forall_forall. intros c Hc. apply in_map_iff in Hc.
    destruct Hc as [k [<- Hk]]. apply in_seq in Hk.
    rewrite length_firstn, length_skipn. nia.
  - rewrite length_firstn, length_skipn. simpl Nat.add. nia.
Qed.

Lemma chunk_text_lengths_witness :
  exists full last_chunk,
    chunk_text (lit "abcdefg") 3 = Ok (full ++ [last_chunk])
    /\ Forall (fun c => len c = 3) full
    /\ 1 <= len last_chunk <= 3.
Proof.
  apply (@chunk_text_lengths (lit "abcdefg") 3); [discriminate|lia].
Defined.

(** ** Assembler *)

Lemma rstrip_end (s : str) :
  forall t c, rstrip s = t ++ [c] -> isspace c = false.
Proof.
  unfold rstrip. intros t c H.
  apply (f_equal (@rev _)) in H. rewrite rev_involutive, rev_app_distr in H.
  simpl in H. revert H. generalize (rev s) as r.
  induction r as [|x r IH]; simpl; intros H.
  - discriminate.
  - destruct (isspace x) eqn:Ex.
    + auto.
    + injection H as -> _. exact Ex.
Qed.

Lemma read_failures_are_exceptions (f : read_failure) :
  is_Exception (class_of_failure f) = true.
Proof. destruct f; reflexivity. Qed.

Lemma read_file_text_body (fs : filesystem) (p : Path) (encoding : str) :
  read_file_text fs p encoding = Ok (spec_body fs p encoding).
Proof.
  unfold read_file_text, read_text, spec_body.
  destruct (fs_read_text fs p encoding) as [text|[f message]]; trivial.
  simpl exn_cls. now rewrite read_failures_are_exceptions.
Qed.

Lemma shown_path_ok (f base_dir : Path) :
  (if is_relative_to f base_dir then relative_to f base_dir else Ok f)
  = Ok (spec_shown_path f base_dir).
Proof.
  unfold relative_to, spec_shown_path. now destruct (is_relative_to f base_dir).
Qed.

Lemma build_parts_contributions fs base_dir encoding files :
  forall parts,
    build_parts fs base_dir encoding files parts
    = Ok (parts ++ List.map (spec_contribution fs base_dir encoding) files).
Proof.
  induction files as [|f rest IH]; intros parts; cbn [build_parts List.map].
  - now rewrite app_nil_r.
  - rewrite shown_path_ok, read_file_text_body. cbn [rbind].
    rewrite IH, <- app_assoc. do 2 f_equal. cbn [app]. f_equal.
    unfold header_of, spec_contribution. now rewrite <- !app_assoc.
Qed.

Lemma build_combined_text_contributions fs files base_dir encoding :
  build_combined_text fs files base_dir encoding
  = Ok (rstrip (concat (List.map (spec_contribution fs base_dir encoding) files))
        ++ [NL]).
Proof.
  unfold build_combined_text. now rewrite build_parts_contributions.
Qed.

Lemma prefixb_refl (l : list str) (rest : list str) : prefixb l (l ++ rest) = true.
Proof.
  induction l as [|x l IH]; simpl; trivial.
  unfold str_eqb. destruct (list_eq_dec N.eq_dec x x); [exact IH|congruence].
Qed.

Lemma shown_path_child (base_dir : Path) (name : str) :
  spec_shown_path (joinpath base_dir name) base_dir = mkPath false [name].
Proof.
  unfold spec_shown_path, is_relative_to, joinpath. simpl.
  rewrite eqb_reflx, prefixb_refl. simpl. f_equal.
  rewrite skipn_app, skipn_all, Nat.sub_diag. reflexivity.
Qed.

(** C3, the example as the specification gives it, is not what the code
    returns: with [a.txt] holding [hello] and [b.txt] holding [world] the
    assembled text has no newline between a body and the separator other
    than the separator's own. *)
Lemma build_combined_text_example_refuted :
  build_combined_text Sample.fs [Sample.a_txt; Sample.b_txt] Sample.base Sample.utf8
  <> Ok (rstrip (lit "### a.txt ###" ++ [NL; NL] ++ lit "hello" ++ [NL] ++ SEPARATOR
                 ++ lit "### b.txt ###" ++ [NL; NL] ++ lit "world" ++ [NL] ++ SEPARATOR)
         ++ [NL]).
Proof.
  intros H.
  apply (f_equal (fun r => match r with Ok t => List.length t | Raise _ => O end)) in H.
  vm_compute in H. discriminate H.
Qed.

(** C3, amended. Each file contributes
    ["### <shown path> ###\n\n" + body + SEPARATOR], where the shown path is
    relative to the base directory when the file is below it and the
    file's own path otherwise; the output is the concatenation of the
    contributions in list order, stripped of the white space at its right
    end, plus one newline. For [a.txt] with content [hello] and [b.txt]
    with content [world] below the base directory, it is
    ["### a.txt ###\n\nhello" + SEPARATOR + "### b.txt ###\n\nworld" + SEPARATOR]
    stripped at the right and newline-terminated. *)
Theorem build_combined_text_layout (fs : filesystem) (base_dir : Path) (encoding : str) :
  (forall files, exists text,
      build_combined_text fs files base_dir encoding = Ok (text ++ [NL])
      /\ text = rstrip (concat (List.map (spec_contribution fs base_dir encoding) files))
      /\ (forall t c, text = t ++ [c] -> isspace c = false))
  /\ (fs_read_text fs (joinpath base_dir (lit "a.txt")) encoding = inl (lit "hello") ->
      fs_read_text fs (joinpath base_dir (lit "b.txt")) encoding = inl (lit "world") ->
      build_combined_text fs
        [joinpath base_dir (lit "a.txt"); joinpath base_dir (lit "b.txt")]
        base_dir encoding
      = Ok (rstrip (lit "### a.txt ###" ++ [NL; NL] ++ lit "hello" ++ SEPARATOR
                    ++ lit "### b.txt ###" ++ [NL; NL] ++ lit "world" ++ SEPARATOR)
            ++ [NL])).
Proof.
  split.
  - intros files. eexists. split; [apply build_combined_text_contributions|].
    split; [reflexivity|]. intros t c H. eapply rstrip_end, H.
  - intros Ha Hb. rewrite build_combined_text_contributions.
    cbn [List.map concat]. unfold spec_contribution, spec_body.
    rewrite Ha, Hb, !shown_path_child. reflexivity.
Qed.

Lemma build_combined_text_layout_witness :
  build_combined_text Sample.fs [Sample.a_txt; Sample.b_txt] Sample.base Sample.utf8
  = Ok (rstrip (lit "### a.txt ###" ++ [NL; NL] ++ lit "hello" ++ SEPARATOR
                ++ lit "### b.txt ###" ++ [NL; NL] ++ lit "world" ++ SEPARATOR)
        ++ [NL]).
Proof.
  apply (proj2 (build_combined_text_layout Sample.fs Sample.base Sample.utf8));
    reflexivity.
Defined.

(** C4. [read_file_text] always returns a string: the decoded text when
    the read succeeds, and ["[Error reading <p>: <m>]\n"] when the read
    fails with message [m]. A file that cannot be read therefore does not
    stop [build_combined_text]: the files before and after it in the list
    contribute as usual, and the unreadable one contributes its header,
    the marker and the separator. *)
Theorem read_file_text_never_raises (fs : filesystem) (p : Path) (encoding : str) :
  (exists body, read_file_text fs p encoding = Ok body)
  /\ (forall text,
        fs_read_text fs p encoding = inl text ->
        read_file_text fs p encoding = Ok text)
  /\ (forall failure m,
        fs_read_text fs p encoding = inr (failure, m) ->
        read_file_text fs p encoding
        = Ok (lit "[Error reading " ++ as_posix p ++ lit ": " ++ m ++ lit "]" ++ [NL])
        /\ forall before after base_dir,
            build_combined_text fs (before ++ p :: after) base_dir encoding
            = Ok (rstrip
                    (concat (List.map (spec_contribution fs base_dir encoding) before)
                     ++ (header_of (spec_shown_path p base_dir)
                         ++ (lit "[Error reading " ++ as_posix p ++ lit ": " ++ m
                             ++ lit "]" ++ [NL])
                         ++ SEPARATOR)
                     ++ concat (List.map (spec_contribution fs base_dir encoding) after))
                  ++ [NL])).
Proof.
  split; [|split].
  - eexists. apply read_file_text_body.
  - intros text H. rewrite read_file_text_body. unfold spec_body. now rewrite H.
  - intros failure m H.
    assert (Hbody : spec_body fs p encoding
                    = lit "[Error reading " ++ as_posix p ++ lit ": " ++ m
                      ++ lit "]" ++ [NL])
      by (unfold spec_body; now rewrite H).
    split.
    + now rewrite read_file_text_body, Hbody.
    + intros before after base_dir.
      rewrite build_combined_text_contributions, map_app, concat_app.
      cbn [List.map concat]. do 4 f_equal.
      unfold spec_contribution, header_of. rewrite Hbody.
      now rewrite <- !app_assoc.
Qed.

Lemma read_file_text_never_raises_witness :
  read_file_text Sample.fs_denied Sample.a_txt Sample.utf8
  = Ok (lit "[Error reading /docs/a.txt: [Errno 13] Permission denied: '/docs/a.txt']"
        ++ [NL])
  /\ build_combined_text Sample.fs_denied [Sample.a_txt; Sample.b_txt]
       Sample.base Sample.utf8
     = Ok (rstrip
             (lit "### a.txt ###" ++ [NL; NL]
              ++ lit "[Error reading /docs/a.txt: [Errno 13] Permission denied: '/docs/a.txt']"
              ++ [NL] ++ SEPARATOR
              ++ lit "### b.txt ###" ++ [NL; NL] ++ lit "world" ++ SEPARATOR)
           ++ [NL]).
Proof.
  destruct (proj2 (proj2 (read_file_text_never_raises
                            Sample.fs_denied Sample.a_txt Sample.utf8))
              RF_Permission (lit "[Errno 13] Permission denied: '/docs/a.txt'")
              eq_refl) as [Hbody Hall].
  split.
  - exact Hbody.
  - exact (Hall [] [Sample.b_txt] Sample.base).
Defined.

(** ** Running programs *)

Lemma run_from_bind {A B : Type} (o : oracle) (p : prog A) (f : A -> prog B) :
  forall tr,
    run_from o tr (pbind p f)
    = match run_from o tr p with
      | (tr', Ok a) => run_from o tr' (f a)
      | (tr', Raise e) => (tr', Raise e)
      end.
Proof.
  induction p as [a|e|c k IH]; intros tr; cbn [pbind run_from]; trivial.
  destruct (o tr c) as [x|e]; trivial.
Qed.

Lemma run_from_perform_bind {B : Type} (o : oracle) (c : call)
    (f : resp c -> prog B) (tr : list call) :
  run_from o tr (pbind (perform c) f)
  = match o tr c with
    | Ok x => run_from o (tr ++ [c]) (f x)
    | Raise e => (tr ++ [c], Raise e)
    end.
Proof. reflexivity. Qed.

Lemma chunk_text_returns (s : str) (L : Z) :
  1 <= L -> exists pieces, chunk_text s L = Ok pieces.
Proof.
  intros HL. destruct s as [|c s'] eqn:Es.
  - now exists [].
  - rewrite <- Es. eexists. apply chunk_text_windows; [rewrite Es; discriminate|exact HL].
Qed.

(** ** Main: nothing to upload *)

(** C5. When the directory exists and [gather_text_files] returns the
    empty list, [main] ends by raising [SystemExit] with a message, so the
    exit status is not zero, and no call to the credential library or to
    the remote service has been made. *)
Theorem main_without_files_exits
    (fnmatchcase : str -> str -> bool) (lower : str -> str)
    (fs : filesystem) (args : arguments) (o : oracle) :
  path_exists fs (fs_resolve fs (arg_directory args)) = true ->
  gather_text_files fnmatchcase lower fs (fs_resolve fs (arg_directory args))
    (effective_pattern args) (arg_sort args) = Ok [] ->
  run o (main fnmatchcase lower fs args)
  = ([], Raise (mkExn SystemExit (lit "No files matched the pattern.")))
  /\ exit_status (snd (run o (main fnmatchcase lower fs args))) <> 0.
Proof.
  intros Hdir Hfiles.
  assert (Hrun : run o (main fnmatchcase lower fs args)
                 = ([], Raise (mkExn SystemExit (lit "No files matched the pattern.")))).
  { unfold run, main. rewrite Hdir. cbn [negb]. rewrite Hfiles. reflexivity. }
  split; [exact Hrun|]. rewrite Hrun. discriminate.
Qed.

Lemma main_without_files_exits_witness :
  run (Sample.environment Sample.cached)
      (main Sample.fnmatchcase Sample.lower Sample.fs Sample.args_md)
  = ([], Raise (mkExn SystemExit (lit "No files matched the pattern.")))
  /\ exit_status (snd (run (Sample.environment Sample.cached)
                         (main Sample.fnmatchcase Sample.lower Sample.fs Sample.args_md)))
     <> 0.
Proof.
  apply (@main_without_files_exits Sample.fnmatchcase Sample.lower Sample.fs
           Sample.args_md (Sample.environment Sample.cached)); reflexivity.
Defined.

(** ** Document Publisher *)

Lemma run_for_each_updates (o : oracle) (doc_id : str) (pieces : list str) :
  forall tr,
    let reqs := List.map (update_request doc_id) pieces in
    let loop := for_each pieces
                  (fun piece => perform (DocumentsBatchUpdate doc_id (insert_at_end piece))) in
    (run_from o tr loop = (tr ++ reqs, Ok tt)
     /\ forall k piece, nth_error pieces k = Some piece ->
          o (tr ++ firstn k reqs) (update_request doc_id piece) = Ok tt)
    \/ (exists k piece e,
          nth_error pieces k = Some piece
          /\ o (tr ++ firstn k reqs) (update_request doc_id piece) = Raise e
          /\ (forall j pj, (j < k)%nat -> nth_error pieces j = Some pj ->
                o (tr ++ firstn j reqs) (update_request doc_id pj) = Ok tt)
          /\ run_from o tr loop = (tr ++ firstn (S k) reqs, Raise e)).
Proof.
  induction pieces as [|x rest IH]; intros tr; cbn zeta.
  - left. split.
    + cbn. now rewrite app_nil_r.
    + intros [|k] piece H; discriminate H.
  - cbn [for_each List.map].
    rewrite (run_from_perform_bind o (DocumentsBatchUpdate doc_id (insert_at_end x))).
    change (DocumentsBatchUpdate doc_id (insert_at_end x))
      with (update_request doc_id x).
    destruct (o tr (update_request doc_id x)) as [[]|e] eqn:Ex.
    + destruct (IH (tr ++ [update_request doc_id x]))
        as [[Hrun Hall]|(k & piece & e & Hk & He & Hbefore & Hrun)].
      * left. split.
        -- rewrite Hrun, <- app_assoc. reflexivity.
        -- intros [|k] piece Hk.
           ++ injection Hk as <-. cbn [firstn]. now rewrite app_nil_r.
           ++ cbn [firstn]. specialize (Hall k piece Hk).
              now rewrite <- app_assoc in Hall.
      * right. exists (S k), piece, e. repeat split.
        -- exact Hk.
        -- cbn [firstn]. now rewrite <- app_assoc in He.
        -- intros [|j] pj Hj Hpj.
           ++ injection Hpj as <-. cbn [firstn]. now rewrite app_nil_r.
           ++ cbn [firstn]. specialize (Hbefore j pj ltac:(lia) Hpj).
              now rewrite <- app_assoc in Hbefore.
        -- rewrite Hrun, <- app_assoc. reflexivity.
    + right. exists O, x, e. repeat split.
      * cbn [firstn]. now rewrite app_nil_r.
      * intros j pj Hj. lia.
Qed.

(** C6. Once the service object is built, [append_text_to_doc] issues the
    update requests of the chunks of [chunk_text(text)] one at a time and
    in chunk order, each holding the single operation [insertText] at
    [endOfSegmentLocation] with one chunk as its text. Either every
    request succeeds and exactly one request per chunk has been issued,
    or the first request that fails is the last one issued and its
    exception is the outcome of the call. *)
Theorem append_text_to_doc_requests (o : oracle) (doc_id text : str)
    (creds : credentials) :
  o [] (Build (lit "docs") (lit "v1") creds) = Ok tt ->
  exists pieces,
    chunk_text text DEFAULT_MAX_LEN = Ok pieces
    /\ ((run o (append_text_to_doc doc_id text creds)
         = (Build (lit "docs") (lit "v1") creds
            :: List.map (update_request doc_id) pieces, Ok tt)
         /\ forall k piece, nth_error pieces k = Some piece ->
              o (Build (lit "docs") (lit "v1") creds
                 :: firstn k (List.map (update_request doc_id) pieces))
                (update_request doc_id piece) = Ok tt)
        \/ (exists k piece e,
              nth_error pieces k = Some piece
              /\ o (Build (lit "docs") (lit "v1") creds
                    :: firstn k (List.map (update_request doc_id) pieces))
                   (update_request doc_id piece) = Raise e
              /\ (forall j pj, (j < k)%nat -> nth_error pieces j = Some pj ->
                    o (Build (lit "docs") (lit "v1") creds
                       :: firstn j (List.map (update_request doc_id) pieces))
                      (update_request doc_id pj) = Ok tt)
              /\ run o (append_text_to_doc doc_id text creds)
                 = (Build (lit "docs") (lit "v1") creds
                    :: firstn (S k) (List.map (update_request doc_id) pieces),
                    Raise e))).
Proof.
  intros Hbuild.
  destruct (@chunk_text_returns text DEFAULT_MAX_LEN) as [pieces Hpieces];
    [unfold DEFAULT_MAX_LEN; lia|].
  exists pieces. split; [exact Hpieces|].
  unfold run, append_text_to_doc.
  rewrite (run_from_perform_bind o (Build (lit "docs") (lit "v1") creds)), Hbuild.
  rewrite Hpieces. cbn [lift pbind app].
  exact (run_for_each_updates o doc_id pieces [Build (lit "docs") (lit "v1") creds]).
Qed.

Lemma append_text_to_doc_requests_witness :
  exists pieces,
    chunk_text (lit "hello") DEFAULT_MAX_LEN = Ok pieces
    /\ ((run (Sample.environment Sample.cached)
             (append_text_to_doc (lit "doc-1") (lit "hello") Sample.fresh)
         = (Build (lit "docs") (lit "v1") Sample.fresh
            :: List.map (update_request (lit "doc-1")) pieces, Ok tt)
         /\ forall k piece, nth_error pieces k = Some piece ->
              Sample.environment Sample.cached
                (Build (lit "docs") (lit "v1") Sample.fresh
                 :: firstn k (List.map (update_request (lit "doc-1")) pieces))
                (update_request (lit "doc-1") piece) = Ok tt)
        \/ (exists k piece e,
              nth_error pieces k = Some piece
              /\ Sample.environment Sample.cached
                   (Build (lit "docs") (lit "v1") Sample.fresh
                    :: firstn k (List.map (update_request (lit "doc-1")) pieces))
                   (update_request (lit "doc-1") piece) = Raise e
              /\ (forall j pj, (j < k)%nat -> nth_error pieces j = Some pj ->
                    Sample.environment Sample.cached
                      (Build (lit "docs") (lit "v1") Sample.fresh
                       :: firstn j (List.map (update_request (lit "doc-1")) pieces))
                      (update_request (lit "doc-1") pj) = Ok tt)
              /\ run (Sample.environment Sample.cached)
                     (append_text_to_doc (lit "doc-1") (lit "hello") Sample.fresh)
                 = (Build (lit "docs") (lit "v1") Sample.fresh
                    :: firstn (S k) (List.map (update_request (lit "doc-1")) pieces),
                    Raise e))).
Proof.
  apply (@append_text_to_doc_requests (Sample.environment Sample.cached)
           (lit "doc-1") (lit "hello") Sample.fresh).
  reflexivity.
Defined.

(** A text of three chunks against a service that refuses the second
    request: two requests of 45000 characters are issued after the build
    and the refusal is the outcome. *)
Example append_stops_at_refusal :
  let outcome :=
    run (Sample.environment Sample.throttled)
        (append_text_to_doc (lit "doc-1") (repeat 97%N (Z.to_nat 100000)) Sample.fresh) in
  (List.map request_size (fst outcome), snd outcome)
  = ([None; Some 45000; Some 45000], Raise Sample.quota_exceeded).
Proof. vm_compute. reflexivity. Qed.

(** ** Credential Provider *)

Ltac run_step H :=
  cbn [run_from pbind perform app negb andb]; rewrite H.

(** C7. When [token.json] exists and loads to a valid credential,
    [get_credentials] makes two calls only, the existence test and the
    load, and returns the loaded credential: no consent flow is run, no
    refresh is requested and the token file is not written. *)
Theorem get_credentials_cached (o : oracle) (c : credentials) :
  o [] (OsPathExists TOKEN_JSON) = Ok true ->
  o [OsPathExists TOKEN_JSON] (FromAuthorizedUserFile TOKEN_JSON SCOPES) = Ok c ->
  cred_valid c = true ->
  run o get_credentials
  = ([OsPathExists TOKEN_JSON; FromAuthorizedUserFile TOKEN_JSON SCOPES], Ok c).
Proof.
  intros Hexists Hload Hvalid. unfold run, get_credentials.
  run_step Hexists. run_step Hload. run_step Hvalid. reflexivity.
Qed.

Lemma get_credentials_cached_witness :
  run (Sample.environment Sample.cached) get_credentials
  = ([OsPathExists TOKEN_JSON; FromAuthorizedUserFile TOKEN_JSON SCOPES],
     Ok Sample.fresh).
Proof.
  apply (@get_credentials_cached (Sample.environment Sample.cached) Sample.fresh);
    reflexivity.
Defined.

Lemma run_until_flow (o : oracle) (before : list call) :
  flow_required o before ->
  run o get_credentials
  = match run_from o before interactive_flow with
    | (tr, Ok creds') =>
        run_from o tr
          (pbind (perform (WriteTextFile TOKEN_JSON (cred_to_json creds')))
                 (fun _ => Ret creds'))
    | (tr, Raise e) => (tr, Raise e)
    end.
Proof.
  intros [[Habsent ->]|(c & Hexists & Hload & Hvalid & Hrefresh & ->)];
    unfold run, get_credentials.
  - run_step Habsent. cbn [run_from pbind perform app].
    rewrite run_from_bind. reflexivity.
  - run_step Hexists. run_step Hload. run_step Hvalid.
    cbn [negb]. rewrite Hrefresh, run_from_bind. reflexivity.
Qed.

(** C8. When the interactive flow is required and [credentials.json] is
    absent, [get_credentials] raises [FileNotFoundError] right after the
    test for that file. When the flow runs and grants a credential, and
    when an expired credential is refreshed, the next call writes
    [token.json] with the JSON of the credential obtained, and that
    credential is returned once the write is done (a failing write is the
    outcome instead). *)
Theorem get_credentials_persists (o : oracle) :
  (forall before,
      flow_required o before ->
      o before (OsPathExists CREDENTIALS_JSON) = Ok false ->
      run o get_credentials
      = (before ++ [OsPathExists CREDENTIALS_JSON], Raise MISSING_SECRETS))
  /\ (forall before granted,
        flow_required o before ->
        o before (OsPathExists CREDENTIALS_JSON) = Ok true ->
        o (before ++ [OsPathExists CREDENTIALS_JSON])
          (FromClientSecretsFile CREDENTIALS_JSON SCOPES) = Ok tt ->
        o (before ++ [OsPathExists CREDENTIALS_JSON;
                      FromClientSecretsFile CREDENTIALS_JSON SCOPES])
          (RunLocalServer 0) = Ok granted ->
        let calls := before ++ [OsPathExists CREDENTIALS_JSON;
                                FromClientSecretsFile CREDENTIALS_JSON SCOPES;
                                RunLocalServer 0] in
        run o get_credentials
        = (calls ++ [WriteTextFile TOKEN_JSON (cred_to_json granted)],
           match o calls (WriteTextFile TOKEN_JSON (cred_to_json granted)) with
           | Ok _ => Ok granted
           | Raise e => Raise e
           end))
  /\ (forall c refreshed,
        o [] (OsPathExists TOKEN_JSON) = Ok true ->
        o [OsPathExists TOKEN_JSON] (FromAuthorizedUserFile TOKEN_JSON SCOPES) = Ok c ->
        cred_valid c = false ->
        cred_expired c = true ->
        truthy (cred_refresh_token c) = true ->
        let calls := [OsPathExists TOKEN_JSON;
                      FromAuthorizedUserFile TOKEN_JSON SCOPES;
                      CredsRefresh c] in
        o [OsPathExists TOKEN_JSON; FromAuthorizedUserFile TOKEN_JSON SCOPES]
          (CredsRefresh c) = Ok refreshed ->
        run o get_credentials
        = (calls ++ [WriteTextFile TOKEN_JSON (cred_to_json refreshed)],
           match o calls (WriteTextFile TOKEN_JSON (cred_to_json refreshed)) with
           | Ok _ => Ok refreshed
           | Raise e => Raise e
           end)).
Proof.
  split; [|split].
  - intros before Hflow Hsecrets. rewrite (run_until_flow Hflow).
    unfold interactive_flow. run_step Hsecrets. reflexivity.
  - intros before granted Hflow Hsecrets Hfile Hserver calls.
    rewrite (run_until_flow Hflow). unfold interactive_flow.
    run_step Hsecrets. run_step Hfile. rewrite <- app_assoc. run_step Hserver.
    rewrite <- app_assoc. cbn [app]. fold calls.
    now destruct (o calls (WriteTextFile TOKEN_JSON (cred_to_json granted))).
  - intros c refreshed Hexists Hload Hvalid Hexpired Htoken calls Hrefresh.
    unfold run, get_credentials.
    run_step Hexists. run_step Hload. run_step Hvalid.
    cbn [negb]. rewrite Hexpired, Htoken. run_step Hrefresh.
    cbn [app]. fold calls.
    now destruct (o calls (WriteTextFile TOKEN_JSON (cred_to_json refreshed))).
Qed.

Lemma get_credentials_persists_witness :
  run (Sample.environment Sample.unprovisioned) get_credentials
  = ([OsPathExists TOKEN_JSON; OsPathExists CREDENTIALS_JSON], Raise MISSING_SECRETS)
  /\ run (Sample.environment Sample.first_run) get_credentials
     = ([OsPathExists TOKEN_JSON; OsPathExists CREDENTIALS_JSON;
         FromClientSecretsFile CREDENTIALS_JSON SCOPES; RunLocalServer 0;
         WriteTextFile TOKEN_JSON (lit "{fresh}")],
        Ok Sample.fresh)
  /\ run (Sample.environment Sample.expired) get_credentials
     = ([OsPathExists TOKEN_JSON; FromAuthorizedUserFile TOKEN_JSON SCOPES;
         CredsRefresh Sample.stale; WriteTextFile TOKEN_JSON (lit "{fresh}")],
        Ok Sample.fresh).
Proof.
  split; [|split].
  - apply (proj1 (get_credentials_persists (Sample.environment Sample.unprovisioned))
             [OsPathExists TOKEN_JSON]); [left; split|]; reflexivity.
  - apply (proj1 (proj2 (get_credentials_persists (Sample.environment Sample.first_run)))
             [OsPathExists TOKEN_JSON] Sample.fresh); [left; split| | |]; reflexivity.
  - apply (proj2 (proj2 (get_credentials_persists (Sample.environment Sample.expired)))
             Sample.stale Sample.fresh); reflexivity.
Defined.

(** ** Sorting by key *)

Section StableSort.

Context {K X : Type}.
Variable lt : K -> K -> bool.

Hypothesis lt_asym : forall a b, lt a b = true -> lt b a = false.
Hypothesis le_trans :
  forall a b c, lt b a = false -> lt c b = false -> lt c a = false.

Let le (a b : K * X) : Prop := lt (fst b) (fst a) = false.

Lemma insert_perm (kx : K * X) (l : list (K * X)) :
  Permutation (kx :: l) (Sort.insert lt kx l).
Proof.
  induction l as [|ky l IH]; simpl.
  - apply Permutation_refl.
  - destruct (lt (fst ky) (fst kx)).
    + eapply perm_trans; [apply perm_swap|]. now apply perm_skip.
    + apply Permutation_refl.
Qed.

Lemma sort_keyed_perm (l : list (K * X)) : Permutation l (Sort.sort_keyed lt l).
Proof.
  induction l as [|kx l IH]; simpl.
  - constructor.
  - eapply perm_trans; [apply perm_skip, IH|apply insert_perm].
Qed.

Lemma insert_sorted (kx : K * X) (l : list (K * X)) :
  StronglySorted le l -> StronglySorted le (Sort.insert lt kx l).
Proof.
  induction l as [|ky l IH]; intros Hs; simpl.
  - repeat constructor.
  - inversion Hs as [|? ? Hl Hky]; subst.
    destruct (lt (fst ky) (fst kx)) eqn:E.
    + constructor; [now apply IH|].
      apply Forall_forall. intros z Hz.
      apply (Permutation_in _ (Permutation_sym (insert_perm kx l))) in Hz.
      destruct Hz as [<-|Hz].
      * unfold le. now apply lt_asym.
      * now apply (proj1 (Forall_forall _ _) Hky).
    + constructor; [exact Hs|]. constructor; [exact E|].
      apply Forall_forall. intros z Hz. unfold le.
      apply le_trans with (b := fst ky); [exact E|].
      now apply (proj1 (Forall_forall _ _) Hky).
Qed.

Lemma sort_keyed_sorted (l : list (K * X)) :
  StronglySorted le (Sort.sort_keyed lt l).
Proof.
  induction l as [|kx l IH]; simpl.
  - constructor.
  - now apply insert_sorted.
Qed.

(** Stability: the elements that share a key keep their order. *)
Lemma insert_filter (same : K -> bool) (kx : K * X) (l : list (K * X)) :
  (forall k, same k = true -> same (fst kx) = true -> lt k (fst kx) = false) ->
  filter (fun e => same (fst e)) (Sort.insert lt kx l)
  = filter (fun e => same (fst e)) (kx :: l).
Proof.
  intros Hsame. induction l as [|ky l IH]; simpl.
  - reflexivity.
  - destruct (lt (fst ky) (fst kx)) eqn:E; simpl; [|reflexivity].
    rewrite IH. simpl.
    destruct (same (fst kx)) eqn:Ex; [|reflexivity].
    destruct (same (fst ky)) eqn:Ey; [|reflexivity].
    rewrite (Hsame _ Ey eq_refl) in E. discriminate E.
Qed.

Lemma sort_keyed_filter (same : K -> bool) (l : list (K * X)) :
  (forall a b, same a = true -> same b = true -> lt a b = false) ->
  filter (fun e => same (fst e)) (Sort.sort_keyed lt l)
  = filter (fun e => same (fst e)) l.
Proof.
  intros Hsame. induction l as [|kx l IH]; simpl.
  - reflexivity.
  - rewrite insert_filter by (intros; now apply Hsame).
    simpl. now rewrite IH.
Qed.

Lemma decorate_pure (f : X -> K) (l : list X) :
  Sort.decorate (fun x => Ok (f x)) l = Ok (List.map (fun x => (f x, x)) l).
Proof.
  induction l as [|x l IH]; simpl; [reflexivity|]. now rewrite IH.
Qed.

Lemma decorate_snd (key : X -> result K) (l : list X) :
  forall kxs, Sort.decorate key l = Ok kxs -> List.map snd kxs = l.
Proof.
  induction l as [|x l IH]; simpl; intros kxs H.
  - now injection H as <-.
  - destruct (key x) as [k|e]; [|discriminate H]. simpl in H.
    destruct (Sort.decorate key l) as [kxs'|e]; [|discriminate H].
    simpl in H. injection H as <-. simpl. now rewrite (IH kxs' eq_refl).
Qed.

Lemma sort_by_key_perm (key : X -> result K) (l l' : list X) :
  Sort.sort_by_key lt key l = Ok l' -> Permutation l l'.
Proof.
  unfold Sort.sort_by_key. intros H.
  destruct (Sort.decorate key l) as [kxs|e] eqn:E; [|discriminate H].
  simpl in H. injection H as <-. rewrite <- (decorate_snd _ _ E).
  apply Permutation_map, sort_keyed_perm.
Qed.

End StableSort.

Section PureKey.

Context {K X : Type}.
Variable f : X -> K.

Lemma decorated_map (l : list X) : decorated f (List.map (fun x => (f x, x)) l).
Proof. unfold decorated. apply Forall_map, Forall_forall. reflexivity. Qed.

Lemma decorated_perm (l l' : list (K * X)) :
  Permutation l l' -> decorated f l -> decorated f l'.
Proof. unfold decorated. intros HP. now apply Permutation_Forall. Qed.

Lemma filter_undecorate (g : K -> bool) (l : list (K * X)) :
  decorated f l ->
  filter (fun x => g (f x)) (List.map snd l)
  = List.map snd (filter (fun e => g (fst e)) l).
Proof.
  induction 1 as [|e l He _ IH]; simpl; [reflexivity|].
  rewrite <- He, IH. now destruct (g (fst e)).
Qed.

Lemma sorted_undecorate (R : K -> K -> Prop) (l : list (K * X)) :
  decorated f l ->
  StronglySorted (fun a b => R (fst a) (fst b)) l ->
  StronglySorted (fun x y => R (f x) (f y)) (List.map snd l).
Proof.
  intros Hd Hs. induction Hs as [|e l Hs IH Hall]; simpl; [constructor|].
  inversion Hd as [|? ? He Hl]; subst.
  constructor; [now apply IH|].
  apply Forall_map. rewrite Forall_forall in *.
  intros z Hz. rewrite <- He, <- (Hl z Hz). now apply Hall.
Qed.

End PureKey.

(** The order of [str] *)

Lemma str_eqb_eq (a b : str) : str_eqb a b = true <-> a = b.
Proof.
  unfold str_eqb. destruct (list_eq_dec N.eq_dec a b); split; congruence.
Qed.

Lemma str_ltb_irrefl (a : str) : str_ltb a a = false.
Proof.
  induction a as [|x a IH]; simpl; [reflexivity|].
  now rewrite N.ltb_irrefl.
Qed.

Lemma str_ltb_asym (a b : str) : str_ltb a b = true -> str_ltb b a = false.
Proof.
  revert b. induction a as [|x a IH]; intros [|y b]; simpl; intros H;
    trivial; try discriminate H.
  destruct (N.ltb_spec x y), (N.ltb_spec y x); try lia; trivial;
    try discriminate H.
  now apply IH.
Qed.

Lemma str_le_trans (a b c : str) :
  str_ltb b a = false -> str_ltb c b = false -> str_ltb c a = false.
Proof.
  revert b c. induction a as [|x a IH]; intros [|y b] [|z c]; simpl;
    intros H1 H2; trivial; try discriminate H1; try discriminate H2.
  destruct (N.ltb_spec y x), (N.ltb_spec x y), (N.ltb_spec z y), (N.ltb_spec y z),
    (N.ltb_spec z x), (N.ltb_spec x z); try lia; trivial;
    try discriminate H1; try discriminate H2.
  now apply (IH b c).
Qed.

(** ** File Collector: the order by name *)

Lemma sort_by_name (lower : str -> str) (enumerated : list Path) :
  exists files,
    Sort.sort_by_key str_ltb (fun p => Ok (name_key lower p)) enumerated = Ok files
    /\ Permutation enumerated files
    /\ StronglySorted
         (fun p q => str_ltb (name_key lower q) (name_key lower p) = false) files
    /\ forall key,
         filter (fun p => str_eqb (name_key lower p) key) files
         = filter (fun p => str_eqb (name_key lower p) key) enumerated.
Proof.
  unfold Sort.sort_by_key. rewrite decorate_pure. cbn [rbind].
  set (kxs := List.map (fun p => (name_key lower p, p)) enumerated).
  assert (Hd : decorated (name_key lower) (Sort.sort_keyed str_ltb kxs))
    by (eapply decorated_perm; [apply sort_keyed_perm|apply decorated_map]).
  assert (Hsnd : List.map snd kxs = enumerated)
    by (unfold kxs; rewrite map_map; apply map_id).
  eexists. split; [reflexivity|]. split; [|split].
  - rewrite <- Hsnd at 1. apply Permutation_map, sort_keyed_perm.
  - apply (sorted_undecorate (fun a b => str_ltb b a = false) Hd).
    apply sort_keyed_sorted; [apply str_ltb_asym|apply str_le_trans].
  - intros key.
    transitivity (List.map snd (filter (fun e => str_eqb (fst e) key) kxs)).
    + etransitivity;
        [exact (filter_undecorate (fun k => str_eqb k key) Hd)|].
      f_equal. apply (sort_keyed_filter str_ltb (fun k => str_eqb k key)).
      intros a b Ha Hb. apply str_eqb_eq in Ha, Hb. rewrite Ha, Hb.
      apply str_ltb_irrefl.
    + symmetry. rewrite <- Hsnd at 1.
      exact (filter_undecorate (fun k => str_eqb k key)
               (decorated_map (name_key lower) enumerated)).
Qed.

(** C10. With the sort mode [name], [gather_text_files] returns the files
    that the glob enumerates, reordered so that the lowercased final
    components of the paths are in ascending order; the directory part of
    a path plays no role in the key. The sort is stable: the files whose
    lowercased final components are equal are in the order in which the
    glob enumerated them. *)
Theorem gather_text_files_by_name
    (fnmatchcase : str -> str -> bool) (lower : str -> str)
    (fs : filesystem) (directory : Path) (pattern : str) (enumerated : list Path) :
  Glob.rglob fnmatchcase fs directory pattern = Ok enumerated ->
  exists files,
    gather_text_files fnmatchcase lower fs directory pattern (lit "name") = Ok files
    /\ Permutation enumerated files
    /\ StronglySorted
         (fun p q => str_ltb (lower (path_name q)) (lower (path_name p)) = false)
         files
    /\ forall key,
         filter (fun p => str_eqb (lower (path_name p)) key) files
         = filter (fun p => str_eqb (lower (path_name p)) key) enumerated.
Proof.
  intros Hglob. unfold gather_text_files. rewrite Hglob. cbn [rbind].
  change (str_eqb (lit "name") (lit "name")) with true. cbv iota.
  exact (sort_by_name lower enumerated).
Qed.

Lemma gather_text_files_by_name_witness :
  exists files,
    gather_text_files Sample.fnmatchcase Sample.lower Sample.deep_fs Sample.base
      (lit "*.txt") (lit "name") = Ok files
    /\ Permutation
         [below Sample.base [lit "c.txt"];
          below Sample.base [lit "z"; lit "a.txt"];
          below Sample.base [lit "a"; lit "B.txt"];
          below Sample.base [lit "a"; lit "a.txt"]]
         files
    /\ StronglySorted
         (fun p q => str_ltb (Sample.lower (path_name q)) (Sample.lower (path_name p))
                     = false)
         files
    /\ forall key,
         filter (fun p => str_eqb (Sample.lower (path_name p)) key) files
         = filter (fun p => str_eqb (Sample.lower (path_name p)) key)
             [below Sample.base [lit "c.txt"];
              below Sample.base [lit "z"; lit "a.txt"];
              below Sample.base [lit "a"; lit "B.txt"];
              below Sample.base [lit "a"; lit "a.txt"]].
Proof.
  apply (@gather_text_files_by_name Sample.fnmatchcase Sample.lower Sample.deep_fs
           Sample.base (lit "*.txt")).
  reflexivity.
Defined.

(** The two [a.txt] come first, in enumeration order although [z] sorts
    after [a]; [B.txt] follows them and [c.txt] is last. *)
Example gather_by_name_in_subdirectories :
  gather_text_files Sample.fnmatchcase Sample.lower Sample.deep_fs Sample.base
    (lit "*.txt") (lit "name")
  = Ok [below Sample.base [lit "z"; lit "a.txt"];
        below Sample.base [lit "a"; lit "a.txt"];
        below Sample.base [lit "a"; lit "B.txt"];
        below Sample.base [lit "c.txt"]].
Proof. vm_compute. reflexivity. Qed.

(** ** File Collector: recursive matching *)

Lemma path_eqb_eq (p q : Path) : path_eqb p q = true <-> p = q.
Proof.
  unfold path_eqb. destruct p as [a l], q as [b m]. simpl.
  destruct (list_eq_dec (list_eq_dec N.eq_dec) l m) as [->|Hne].
  - rewrite andb_true_r. split.
    + intros H. apply eqb_prop in H. now subst.
    + intros H. injection H as ->. apply eqb_reflx.
  - rewrite andb_false_r. split; [discriminate|]. intros H. now injection H.
Qed.

Lemma seen_In (p : Path) (seen : list Path) :
  existsb (path_eqb p) seen = true <-> In p seen.
Proof.
  rewrite existsb_exists. split.
  - intros [q [Hq Heq]]. apply path_eqb_eq in Heq. now subst.
  - intros H. exists p. split; [exact H|]. now apply path_eqb_eq.
Qed.

Lemma dedupe_In (l : list Path) :
  forall seen p, In p (Glob.dedupe seen l) <-> In p l /\ ~ In p seen.
Proof.
  induction l as [|x l IH]; intros seen p; simpl.
  - tauto.
  - destruct (existsb (path_eqb x) seen) eqn:E.
    + apply seen_In in E. rewrite IH. split.
      * tauto.
      * intros [[<-|H] Hn]; tauto.
    + assert (Hx : ~ In x seen) by (rewrite <- seen_In, E; discriminate).
      simpl. rewrite IH. simpl. split.
      * intros [<-|[H Hn]]; tauto.
      * intros [[<-|H] Hn]; [tauto|].
        destruct (path_eqb x p) eqn:Exp.
        -- apply path_eqb_eq in Exp. now left.
        -- right. split; [exact H|]. intros [Heq|Hs]; [|tauto].
           apply path_eqb_eq in Heq. congruence.
Qed.

Lemma dedupe_seen_all (l : list Path) :
  forall seen, (forall x, In x l -> In x seen) -> Glob.dedupe seen l = [].
Proof.
  induction l as [|x l IH]; intros seen H; simpl; [reflexivity|].
  rewrite (proj2 (seen_In x seen)) by (apply H; now left).
  apply IH. intros y Hy. apply H. now right.
Qed.

(** What comes after is absorbed when it has been yielded already. *)
Lemma dedupe_absorbs (l1 l2 : list Path) :
  forall seen,
    (forall x, In x l2 -> In x seen \/ In x l1) ->
    Glob.dedupe seen (l1 ++ l2) = Glob.dedupe seen l1.
Proof.
  induction l1 as [|x l1 IH]; intros seen H; simpl.
  - apply dedupe_seen_all. intros y Hy. destruct (H y Hy) as [Hs|[]]. exact Hs.
  - destruct (existsb (path_eqb x) seen) eqn:E.
    + apply IH. intros y Hy. destruct (H y Hy) as [Hs|[<-|Hl]]; auto.
      left. now apply seen_In.
    + f_equal. apply IH. intros y Hy.
      destruct (H y Hy) as [Hs|[<-|Hl]]; simpl; auto.
Qed.

Lemma dedupe_idempotent (l : list Path) :
  forall seen, Glob.dedupe seen (Glob.dedupe seen l) = Glob.dedupe seen l.
Proof.
  induction l as [|x l IH]; intros seen; simpl; [reflexivity|].
  destruct (existsb (path_eqb x) seen) eqn:E; [apply IH|].
  simpl. rewrite E. f_equal.
  transitivity (Glob.dedupe (x :: seen) (Glob.dedupe (x :: seen) l)); [|apply IH].
  reflexivity.
Qed.

Lemma below_nil (p : Path) : below p [] = p.
Proof. destruct p. unfold below. simpl. now rewrite app_nil_r. Qed.

Lemma below_cons (p : Path) (x : str) (rel : list str) :
  below (joinpath p x) rel = below p (x :: rel).
Proof. unfold below, joinpath. simpl. now rewrite <- app_assoc. Qed.

Lemma below_snoc (p : Path) (rel : list str) (x : str) :
  joinpath (below p rel) x = below p (rel ++ [x]).
Proof. unfold below, joinpath. simpl. now rewrite <- app_assoc. Qed.

Lemma child_entry (name : str) (es : forest) (c : node) :
  child name es = Some c -> In (name, c) (entry_list es).
Proof.
  induction es as [|x n rest IH]; simpl.
  - discriminate.
  - destruct (str_eqb x name) eqn:E.
    + apply str_eqb_eq in E. intros H. injection H as ->. left. now subst.
    + intros H. right. now apply IH.
Qed.

Lemma descend_snoc (rel : list str) (name : str) :
  forall n c,
    descend n (rel ++ [name]) = Some c ->
    exists es, descend n rel = Some (Dir es) /\ child name es = Some c.
Proof.
  induction rel as [|x rel IH]; intros n c H; simpl in *.
  - destruct n as [|es]; [discriminate H|].
    destruct (child name es) as [c'|] eqn:E; [|discriminate H].
    exists es. split; [reflexivity|]. now rewrite <- H.
  - destruct n as [|es]; [discriminate H|].
    destruct (child x es) as [c'|]; [|discriminate H]. now apply IH.
Qed.

(** The directories found below a directory of the walk belong to the walk. *)
Lemma iterate_directories_closed (n : node) :
  forall p d d',
    In d (Glob.iterate_directories p n) ->
    In d' (Glob.iterate_directories (fst d) (Dir (snd d))) ->
    In d' (Glob.iterate_directories p n).
Proof.
  induction n as [|es IHes| |name n IHn rest IHrest] using node_forest_ind
    with (P0 := fun es => forall p d d',
                  In d (Glob.iterate_entries p es) ->
                  In d' (Glob.iterate_directories (fst d) (Dir (snd d))) ->
                  In d' (Glob.iterate_entries p es));
    intros p d d' Hd Hd'.
  - destruct Hd.
  - cbn [Glob.iterate_directories] in Hd |- *. destruct Hd as [<-|Hd].
    + exact Hd'.
    + right. now apply (IHes p d d').
  - destruct Hd.
  - cbn [Glob.iterate_entries] in Hd |- *. apply in_app_iff in Hd.
    apply in_app_iff. destruct Hd as [Hd|Hd].
    + left. now apply (IHn _ d d').
    + right. now apply (IHrest p d d').
Qed.

Lemma iterate_entries_child (x : str) (c : node) (es : forest) :
  child x es = Some c ->
  forall p d, In d (Glob.iterate_directories (joinpath p x) c) ->
              In d (Glob.iterate_entries p es).
Proof.
  induction es as [|y n rest IH]; simpl.
  - discriminate.
  - intros H p d Hd. apply in_app_iff.
    destruct (str_eqb y x) eqn:E.
    + apply str_eqb_eq in E. injection H as ->. subst y. now left.
    + right. now apply IH.
Qed.

(** Every directory below the start is visited. *)
Lemma iterate_directories_descend (rel : list str) :
  forall n p es,
    descend n rel = Some (Dir es) ->
    In (below p rel, es) (Glob.iterate_directories p n).
Proof.
  induction rel as [|x rel IH]; intros n p es H; simpl in H.
  - injection H as ->. rewrite below_nil. now left.
  - destruct n as [|es0]; [discriminate H|].
    destruct (child x es0) as [c|] eqn:E; [|discriminate H].
    right. eapply iterate_entries_child; [exact E|].
    rewrite <- below_cons. now apply IH.
Qed.

Section SelectFacts.

Variable fnmatchcase : str -> str -> bool.

Local Abbreviation select := (Glob.select fnmatchcase).

Lemma make_selector_component (pat : str) :
  Glob.parse_pattern pat = Ok [pat] ->
  Glob.has_double_star pat = false ->
  Glob.make_selector (lit "**" :: [pat]) = Ok [Glob.PRec; final_part pat].
Proof.
  intros Hparse Hstar.
  assert (Hne : str_eqb pat [] = false).
  { destruct (str_eqb pat []) eqn:E; trivial.
    apply str_eqb_eq in E. subst pat. discriminate Hparse. }
  assert (Hrec : str_eqb pat (lit "**") = false).
  { destruct (str_eqb pat (lit "**")) eqn:E; trivial.
    apply str_eqb_eq in E. subst pat. discriminate Hstar. }
  cbn [Glob.make_selector]. rewrite Hne, Hrec, Hstar.
  change (str_eqb (lit "**") []) with false.
  change (str_eqb (lit "**") (lit "**")) with true.
  unfold final_part. cbn [rbind]. now destruct (Glob.is_wildcard_pattern pat).
Qed.

Lemma select_final_part (pat name : str) (p : Path) (es : forest) (c : node) :
  name_matches fnmatchcase pat name = true ->
  child name es = Some c ->
  In (joinpath p name) (select [final_part pat] p (Dir es)).
Proof.
  unfold name_matches, final_part. intros Hmatch Hchild.
  destruct (Glob.is_wildcard_pattern pat); cbn [Glob.select].
  - apply in_flat_map. exists (name, c). split; [now apply child_entry|].
    cbn [fst snd Glob.dironly negb orb andb]. rewrite Hmatch. now left.
  - apply str_eqb_eq in Hmatch. subst pat. rewrite Hchild.
    cbn [Glob.dironly negb orb]. now left.
Qed.

Lemma select_recursive_In (succ : list Glob.part) (p q : Path) (n : node) :
  In q (select (Glob.PRec :: succ) p n)
  <-> exists d, In d (Glob.iterate_directories p n)
                /\ In q (select succ (fst d) (Dir (snd d))).
Proof.
  cbn [Glob.select]. rewrite dedupe_In, in_flat_map. simpl. tauto.
Qed.

(** A file below the start whose name matches is selected. *)
Lemma select_finds_file (pat name : str) (rel : list str) (p : Path) (n : node) :
  name_matches fnmatchcase pat name = true ->
  descend n (rel ++ [name]) = Some File ->
  In (below p (rel ++ [name])) (select [Glob.PRec; final_part pat] p n).
Proof.
  intros Hmatch Hfile. apply descend_snoc in Hfile.
  destruct Hfile as [es [Hdir Hchild]].
  apply select_recursive_In. exists (below p rel, es). split.
  - now apply iterate_directories_descend.
  - cbn [fst snd]. rewrite <- below_snoc. now apply select_final_part with (c := File).
Qed.

(** [**/**] selects what [**] selects, in the same order. *)
Lemma select_recursive_twice (succ : list Glob.part) (p : Path) (n : node) :
  select (Glob.PRec :: Glob.PRec :: succ) p n = select (Glob.PRec :: succ) p n.
Proof.
  destruct n as [|es]; [reflexivity|].
  change (select (Glob.PRec :: Glob.PRec :: succ) p (Dir es))
    with (Glob.dedupe []
            (select (Glob.PRec :: succ) p (Dir es)
             ++ flat_map (fun d => select (Glob.PRec :: succ) (fst d) (Dir (snd d)))
                  (Glob.iterate_entries p es))).
  rewrite dedupe_absorbs.
  - cbn [Glob.select]. apply dedupe_idempotent.
  - intros q Hq. right. apply in_flat_map in Hq. destruct Hq as [d [Hd Hq]].
    apply select_recursive_In in Hq. destruct Hq as [d' [Hd' Hq]].
    apply select_recursive_In. exists d'. split; [|exact Hq].
    apply iterate_directories_closed with (d := d); [|exact Hd'].
    cbn [Glob.iterate_directories]. now right.
Qed.

Lemma rglob_recursive_pattern (fs : filesystem) (directory : Path) :
  Glob.rglob fnmatchcase fs directory (lit "**/*.txt")
  = Glob.rglob fnmatchcase fs directory (lit "*.txt").
Proof.
  unfold Glob.rglob.
  change (Glob.parse_pattern (lit "**/*.txt")) with (Ok [lit "**"; lit "*.txt"]).
  change (Glob.parse_pattern (lit "*.txt")) with (Ok [lit "*.txt"]).
  cbn [rbind].
  change (Glob.make_selector [lit "**"; lit "**"; lit "*.txt"])
    with (Ok [Glob.PRec; Glob.PRec; Glob.PWild (lit "*.txt")]).
  change (Glob.make_selector [lit "**"; lit "*.txt"])
    with (Ok [Glob.PRec; Glob.PWild (lit "*.txt")]).
  cbn [rbind].
  destruct (find_node fs directory) as [[|es]|]; trivial.
  now rewrite select_recursive_twice.
Qed.

End SelectFacts.

Lemma decorate_total {K X : Type} (key : X -> result K) (l : list X) :
  (forall x, exists k, key x = Ok k) ->
  exists kxs, Sort.decorate key l = Ok kxs.
Proof.
  intros Hkey. induction l as [|x l [kxs IH]]; simpl.
  - now exists [].
  - destruct (Hkey x) as [k ->]. rewrite IH. simpl. now eexists.
Qed.

Lemma gather_text_files_perm
    (fnmatchcase : str -> str -> bool) (lower : str -> str)
    (fs : filesystem) (directory : Path) (pattern sort : str) (files : list Path) :
  gather_text_files fnmatchcase lower fs directory pattern sort = Ok files ->
  exists enumerated,
    Glob.rglob fnmatchcase fs directory pattern = Ok enumerated
    /\ Permutation enumerated files.
Proof.
  unfold gather_text_files. intros H.
  destruct (Glob.rglob fnmatchcase fs directory pattern) as [enumerated|e];
    [|discriminate H].
  exists enumerated. split; [reflexivity|]. cbn [rbind] in H.
  destruct (str_eqb sort (lit "name"));
    [|destruct (str_eqb sort (lit "mtime"));
      [|destruct (str_eqb sort (lit "ctime"))]].
  - exact (sort_by_key_perm _ _ _ H).
  - exact (sort_by_key_perm _ _ _ H).
  - exact (sort_by_key_perm _ _ _ H).
  - injection H as <-. apply Permutation_refl.
Qed.

Lemma gather_text_files_returns
    (fnmatchcase : str -> str -> bool) (lower : str -> str)
    (fs : filesystem) (directory : Path) (pattern sort : str) (enumerated : list Path) :
  Glob.rglob fnmatchcase fs directory pattern = Ok enumerated ->
  stat_succeeds fs \/ sort = lit "name" ->
  exists files,
    gather_text_files fnmatchcase lower fs directory pattern sort = Ok files.
Proof.
  intros Hglob Hsort. unfold gather_text_files. rewrite Hglob. cbn [rbind].
  destruct (str_eqb sort (lit "name")) eqn:Ename.
  - destruct (sort_by_name lower enumerated) as [files [H _]]. now exists files.
  - destruct Hsort as [Hstat| ->]; [|discriminate Ename].
    assert (Hkeys : forall proj : stat_result -> Z,
               exists files,
                 Sort.sort_by_key Z.ltb
                   (fun p => rbind (fs_stat fs p) (fun st => Ok (proj st))) enumerated
                 = Ok files).
    { intros proj. unfold Sort.sort_by_key.
      destruct (@decorate_total Z Path
                  (fun p => rbind (fs_stat fs p) (fun st => Ok (proj st))) enumerated)
        as [kxs ->].
      - intros p. destruct (Hstat p) as [st ->]. now eexists.
      - now eexists. }
    destruct (str_eqb sort (lit "mtime")); [apply Hkeys|].
    destruct (str_eqb sort (lit "ctime")); [apply Hkeys|].
    now eexists.
Qed.

(** C9. [gather_text_files] matches in every directory below the base: a
    file at any depth whose name matches a one-component pattern is in
    the result, whatever the sort mode, and a result is returned whenever
    the sort needs no [stat] or every [stat] succeeds. The [--recurse]
    flag only replaces the pattern [*.txt] by [**/*.txt], which leaves
    the result as it is. *)
Theorem gather_text_files_recursive
    (fnmatchcase : str -> str -> bool) (lower : str -> str)
    (fs : filesystem) (base_dir : Path) (pat : str)
    (dirs : list str) (name : str) (sort : str) :
  Glob.parse_pattern pat = Ok [pat] ->
  Glob.has_double_star pat = false ->
  name_matches fnmatchcase pat name = true ->
  find_node fs (below base_dir (dirs ++ [name])) = Some File ->
  (forall files,
      gather_text_files fnmatchcase lower fs base_dir pat sort = Ok files ->
      In (below base_dir (dirs ++ [name])) files)
  /\ (stat_succeeds fs \/ sort = lit "name" ->
      exists files,
        gather_text_files fnmatchcase lower fs base_dir pat sort = Ok files)
  /\ (forall args,
        effective_pattern args
        = (if arg_recurse args && str_eqb (arg_pattern args) (lit "*.txt")
           then lit "**/*.txt" else arg_pattern args)
        /\ gather_text_files fnmatchcase lower fs base_dir (effective_pattern args) sort
           = gather_text_files fnmatchcase lower fs base_dir (arg_pattern args) sort).
Proof.
  intros Hparse Hstar Hmatch Hfile.
  assert (Hglob : exists enumerated,
             Glob.rglob fnmatchcase fs base_dir pat = Ok enumerated
             /\ In (below base_dir (dirs ++ [name])) enumerated).
  { unfold Glob.rglob. rewrite Hparse. cbn [rbind].
    rewrite (make_selector_component Hparse Hstar). cbn [rbind].
    unfold find_node, below in Hfile. cbn [path_parts] in Hfile.
    assert (Hsplit : exists es,
               descend (fs_root fs) (path_parts base_dir) = Some (Dir es)
               /\ descend (Dir es) (dirs ++ [name]) = Some File).
    { clear - Hfile. revert Hfile. generalize (fs_root fs) as n.
      induction (path_parts base_dir) as [|x l IH]; intros n H; simpl in *.
      - destruct n as [|es].
        + destruct dirs; discriminate H.
        + now exists es.
      - destruct n as [|es]; [discriminate H|].
        destruct (child x es) as [c|]; [|discriminate H]. now apply IH. }
    destruct Hsplit as [es [Hbase Hrel]]. unfold find_node. rewrite Hbase.
    eexists. split; [reflexivity|]. now apply select_finds_file. }
  destruct Hglob as [enumerated [Hglob Hin]].
  split; [|split].
  - intros files Hfiles. apply gather_text_files_perm in Hfiles.
    destruct Hfiles as [enumerated' [Hglob' Hperm]].
    rewrite Hglob in Hglob'. injection Hglob' as <-.
    now apply (Permutation_in _ Hperm).
  - intros Hsort. now apply gather_text_files_returns with (enumerated := enumerated).
  - intros args. split; [reflexivity|].
    unfold effective_pattern.
    destruct (arg_recurse args); cbn [andb]; [|reflexivity].
    destruct (str_eqb (arg_pattern args) (lit "*.txt")) eqn:E; [|reflexivity].
    apply str_eqb_eq in E. rewrite E. unfold gather_text_files.
    now rewrite rglob_recursive_pattern.
Qed.

Lemma gather_text_files_recursive_witness :
  (forall files,
      gather_text_files Sample.fnmatchcase Sample.lower Sample.deep_fs Sample.base
        (lit "*.txt") (lit "name") = Ok files ->
      In (below Sample.base ([lit "z"] ++ [lit "a.txt"])) files)
  /\ (stat_succeeds Sample.deep_fs \/ lit "name" = lit "name" ->
      exists files,
        gather_text_files Sample.fnmatchcase Sample.lower Sample.deep_fs Sample.base
          (lit "*.txt") (lit "name") = Ok files)
  /\ (forall args,
        effective_pattern args
        = (if arg_recurse args && str_eqb (arg_pattern args) (lit "*.txt")
           then lit "**/*.txt" else arg_pattern args)
        /\ gather_text_files Sample.fnmatchcase Sample.lower Sample.deep_fs Sample.base
             (effective_pattern args) (lit "name")
           = gather_text_files Sample.fnmatchcase Sample.lower Sample.deep_fs Sample.base
               (arg_pattern args) (lit "name")).
Proof.
  apply (@gather_text_files_recursive Sample.fnmatchcase Sample.lower Sample.deep_fs
           Sample.base (lit "*.txt") [lit "z"] (lit "a.txt") (lit "name"));
    reflexivity.
Defined.

(** * Further properties *)

(** ** Chunker: bounds that are not positive, and counts *)

(** X1. A negative bound makes [chunk_text] return no chunk at all,
    whatever the string, and the bound 0 makes it raise [ValueError] on
    every non-empty string. *)
Theorem chunk_text_nonpositive_bound (s : str) (L : Z) :
  (L < 0 -> chunk_text s L = Ok [])
  /\ (L = 0 -> s <> [] ->
      chunk_text s L
      = Raise (mkExn ValueError (lit "range() arg 3 must not be zero"))).
Proof.
  split.
  - intros HL. destruct s as [|c s']; [reflexivity|].
    unfold chunk_text, Builtins.range, Builtins.range_len.
    destruct (Z.eqb_spec L 0) as [?|_]; [lia|].
    destruct (Z.ltb_spec 0 L) as [?|_]; [lia|].
    destruct (Z.ltb_spec (len (c :: s')) 0) as [Hneg|_]; [|reflexivity].
    unfold len in Hneg. lia.
  - intros -> Hs. destruct s as [|c s']; [congruence|]. reflexivity.
Qed.

Lemma chunk_text_nonpositive_bound_witness :
  chunk_text (lit "abc") (-2) = Ok []
  /\ chunk_text (lit "abc") 0
     = Raise (mkExn ValueError (lit "range() arg 3 must not be zero")).
Proof.
  split.
  - apply (proj1 (chunk_text_nonpositive_bound (lit "abc") (-2))). lia.
  - apply (proj2 (chunk_text_nonpositive_bound (lit "abc") 0));
      [reflexivity|discriminate].
Defined.

(** X2. For a bound [L >= 1] the number of chunks is the length of the
    string divided by [L], rounded up. *)
Theorem chunk_text_count (s : str) (L : Z) :
  1 <= L ->
  exists cs, chunk_text s L = Ok cs /\ len cs = (len s + L - 1) / L.
Proof.
  intros HL. destruct s as [|c s'] eqn:Es.
  - exists []. split; [reflexivity|]. unfold len. simpl.
    symmetry. apply Z.div_small. lia.
  - rewrite <- Es. assert (Hs : s <> []) by (rewrite Es; discriminate).
    rewrite (chunk_text_windows Hs HL). eexists. split; [reflexivity|].
    unfold len at 1. rewrite length_map, length_seq.
    unfold chunk_count, Builtins.range_len.
    assert (0 < len s) by (unfold len; rewrite Es; simpl; lia).
    destruct (Z.ltb_spec 0 L) as [_|?]; [|lia].
    destruct (Z.ltb_spec 0 (len s)) as [_|?]; [|lia].
    pose proof (Z.div_pos (len s - 0 - 1) L ltac:(lia) ltac:(lia)).
    rewrite Z2Nat.id by lia.
    replace (len s + L - 1) with (len s - 0 - 1 + 1 * L) by lia.
    rewrite Z.div_add by lia. reflexivity.
Qed.

Lemma chunk_text_count_witness :
  exists cs, chunk_text (lit "abcdefg") 3 = Ok cs
             /\ len cs = (len (lit "abcdefg") + 3 - 1) / 3.
Proof. apply (@chunk_text_count (lit "abcdefg") 3). lia. Defined.

Lemma chunk_text_whole (s : str) (L : Z) :
  1 <= len s <= L -> chunk_text s L = Ok [s].
Proof.
  intros Hlen.
  assert (Hs : s <> []) by (intros ->; unfold len in Hlen; simpl in Hlen; lia).
  rewrite (chunk_text_windows Hs) by lia.
  assert (Hn : chunk_count s L = 1%nat).
  { unfold chunk_count, Builtins.range_len.
    destruct (Z.ltb_spec 0 L) as [_|?]; [|lia].
    destruct (Z.ltb_spec 0 (len s)) as [_|?]; [|lia].
    rewrite Z.div_small by lia. reflexivity. }
  rewrite Hn. simpl. do 2 f_equal. apply firstn_all2. unfold len in Hlen. lia.
Qed.

Lemma chunk_text_pieces (s : str) (L : Z) :
  1 <= L -> exists cs, chunk_text s L = Ok cs /\ concat cs = s.
Proof.
  intros HL. destruct s as [|c s'] eqn:Es.
  - now exists [].
  - rewrite <- Es. assert (Hs : s <> []) by (rewrite Es; discriminate).
    pose proof (chunk_count_bounds Hs HL) as [_ [_ Hhi]].
    eexists. split; [apply (chunk_text_windows Hs HL)|].
    rewrite concat_windows. simpl skipn. apply firstn_all2.
    unfold len in Hhi. nia.
Qed.

(** ** Document Publisher: short texts *)

(** X3. With a service that is built and accepts the request,
    [append_text_to_doc] sends a text of 1 to 45000 characters whole, in a
    single update request; for the empty text it builds the service and
    sends no update request. *)
Theorem append_text_to_doc_short (o : oracle) (doc_id text : str)
    (creds : credentials) :
  o [] (Build (lit "docs") (lit "v1") creds) = Ok tt ->
  (text = [] ->
   run o (append_text_to_doc doc_id text creds)
   = ([Build (lit "docs") (lit "v1") creds], Ok tt))
  /\ (1 <= len text <= 45000 ->
      o [Build (lit "docs") (lit "v1") creds] (update_request doc_id text) = Ok tt ->
      run o (append_text_to_doc doc_id text creds)
      = ([Build (lit "docs") (lit "v1") creds; update_request doc_id text], Ok tt)).
Proof.
  intros Hbuild. split.
  - intros ->. unfold run, append_text_to_doc.
    rewrite (run_from_perform_bind o (Build (lit "docs") (lit "v1") creds)), Hbuild.
    reflexivity.
  - intros Hlen Hreq. unfold run, append_text_to_doc.
    rewrite (run_from_perform_bind o (Build (lit "docs") (lit "v1") creds)), Hbuild.
    rewrite (@chunk_text_whole text DEFAULT_MAX_LEN) by exact Hlen.
    cbn [lift pbind for_each app].
    rewrite (run_from_perform_bind o (DocumentsBatchUpdate doc_id (insert_at_end text))).
    change (DocumentsBatchUpdate doc_id (insert_at_end text))
      with (update_request doc_id text).
    rewrite Hreq. reflexivity.
Qed.

Lemma append_text_to_doc_short_witness :
  run (Sample.environment Sample.cached)
      (append_text_to_doc (lit "doc-1") [] Sample.fresh)
  = ([Build (lit "docs") (lit "v1") Sample.fresh], Ok tt)
  /\ run (Sample.environment Sample.cached)
         (append_text_to_doc (lit "doc-1") (lit "hello") Sample.fresh)
     = ([Build (lit "docs") (lit "v1") Sample.fresh;
         update_request (lit "doc-1") (lit "hello")], Ok tt).
Proof.
  split.
  - apply (proj1 (@append_text_to_doc_short (Sample.environment Sample.cached)
                    (lit "doc-1") [] Sample.fresh eq_refl)).
    reflexivity.
  - apply (proj2 (@append_text_to_doc_short (Sample.environment Sample.cached)
                    (lit "doc-1") (lit "hello") Sample.fresh eq_refl));
      [unfold len; simpl; lia|reflexivity].
Defined.

(** ** Text Assembler: what the stripping removes *)

Lemma dropwhile_spaces (ws : str) (c : codepoint) (rest : str) :
  forallb isspace ws = true -> isspace c = false ->
  dropwhile isspace (ws ++ c :: rest) = c :: rest.
Proof.
  intros Hws Hc. induction ws as [|w ws IH]; simpl in *.
  - now rewrite Hc.
  - apply andb_prop in Hws. destruct Hws as [Hw Hws]. rewrite Hw. now apply IH.
Qed.

Lemma rstrip_keeps (kept : str) (c : codepoint) (ws : str) :
  isspace c = false -> forallb isspace ws = true ->
  rstrip (kept ++ c :: ws) = kept ++ [c].
Proof.
  intros Hc Hws. unfold rstrip.
  rewrite rev_app_distr. simpl rev. rewrite <- !app_assoc. simpl app.
  rewrite dropwhile_spaces.
  - simpl. now rewrite rev_involutive.
  - rewrite forallb_forall in *. intros x Hx. apply Hws. now apply in_rev.
  - exact Hc.
Qed.

Lemma separator_end :
  SEPARATOR = ([NL] ++ repeat 45%N 71) ++ [45%N; NL; NL].
Proof. reflexivity. Qed.

Lemma strip_after_separator (x : str) :
  rstrip (x ++ SEPARATOR) ++ [NL] = removelast (x ++ SEPARATOR).
Proof.
  rewrite separator_end, !app_assoc.
  etransitivity.
  - apply (f_equal (fun t => t ++ [NL])).
    apply (@rstrip_keeps ((x ++ [NL]) ++ repeat 45%N 71) 45%N [NL; NL]);
      reflexivity.
  - rewrite removelast_app by discriminate.
    rewrite <- !app_assoc. reflexivity.
Qed.

(** X4. For a non-empty list of files the assembled text is the
    concatenation of the contributions without its last character: the
    stripping removes only the two newlines that end the last separator,
    so no file body loses or gains white space, and one newline is put
    back. *)
Theorem build_combined_text_keeps_bodies (fs : filesystem) (files : list Path)
    (base_dir : Path) (encoding : str) :
  files <> [] ->
  build_combined_text fs files base_dir encoding
  = Ok (removelast (concat (List.map (spec_contribution fs base_dir encoding) files))).
Proof.
  intros Hfiles. rewrite build_combined_text_contributions. f_equal.
  destruct (exists_last Hfiles) as [before [f ->]].
  rewrite map_app, concat_app. cbn [List.map concat]. rewrite app_nil_r.
  assert (Hlast : spec_contribution fs base_dir encoding f
                  = (lit "### " ++ as_posix (spec_shown_path f base_dir) ++ lit " ###"
                     ++ [NL; NL] ++ spec_body fs f encoding) ++ SEPARATOR)
    by (unfold spec_contribution; now rewrite <- !app_assoc).
  rewrite Hlast, app_assoc. apply strip_after_separator.
Qed.

Lemma build_combined_text_keeps_bodies_witness :
  build_combined_text Sample.fs [Sample.a_txt; Sample.b_txt] Sample.base Sample.utf8
  = Ok (removelast
          (concat (List.map (spec_contribution Sample.fs Sample.base Sample.utf8)
                     [Sample.a_txt; Sample.b_txt]))).
Proof.
  apply (@build_combined_text_keeps_bodies Sample.fs [Sample.a_txt; Sample.b_txt]
           Sample.base Sample.utf8).
  discriminate.
Defined.

(** ** File Collector: what is returned *)

Lemma below_below (p : Path) (a b : list str) :
  below (below p a) b = below p (a ++ b).
Proof. unfold below. simpl. now rewrite <- app_assoc. Qed.

Lemma joinpath_below (p : Path) (x : str) : joinpath p x = below p [x].
Proof. reflexivity. Qed.

Lemma iterate_directories_below (n : node) :
  forall p d, In d (Glob.iterate_directories p n) -> exists dirs, fst d = below p dirs.
Proof.
  induction n as [|es IHes| |name n IHn rest IHrest] using node_forest_ind
    with (P0 := fun es => forall p d,
                  In d (Glob.iterate_entries p es) ->
                  exists dirs, fst d = below p dirs);
    intros p d Hd.
  - destruct Hd.
  - cbn [Glob.iterate_directories] in Hd. destruct Hd as [<-|Hd].
    + exists []. simpl. now rewrite below_nil.
    + now apply IHes.
  - destruct Hd.
  - cbn [Glob.iterate_entries] in Hd. apply in_app_iff in Hd.
    destruct Hd as [Hd|Hd].
    + destruct (IHn _ _ Hd) as [dirs ->]. exists (name :: dirs).
      apply below_cons.
    + now apply IHrest.
Qed.

Section Returned.

Variable fnmatchcase : str -> str -> bool.

(** Whatever the selector, a selected path lies below the start. *)
Lemma select_below (sel : list Glob.part) :
  forall p n q, In q (Glob.select fnmatchcase sel p n) -> exists rel, q = below p rel.
Proof.
  induction sel as [|part succ IH]; intros p n q Hq.
  - destruct Hq as [<-|[]]. exists []. now rewrite below_nil.
  - destruct part as [| |pat|name].
    + destruct Hq as [<-|[]]. exists []. now rewrite below_nil.
    + apply select_recursive_In in Hq. destruct Hq as [d [Hd Hq]].
      apply iterate_directories_below in Hd. destruct Hd as [dirs Hd].
      apply IH in Hq. destruct Hq as [rel ->]. rewrite Hd, below_below. now eexists.
    + cbn [Glob.select] in Hq. destruct n as [|es]; [destruct Hq|].
      apply in_flat_map in Hq. destruct Hq as [e [_ Hq]].
      destruct ((negb (Glob.dironly succ) || is_dir_node (snd e))
                && fnmatchcase (fst e) pat); [|destruct Hq].
      apply IH in Hq. destruct Hq as [rel ->]. rewrite below_cons. now eexists.
    + cbn [Glob.select] in Hq. destruct n as [|es]; [destruct Hq|].
      destruct (child name es) as [c|]; [|destruct Hq].
      destruct (negb (Glob.dironly succ) || is_dir_node c); [|destruct Hq].
      apply IH in Hq. destruct Hq as [rel ->]. rewrite below_cons. now eexists.
Qed.

(** With a one-component pattern the last component matches it. *)
Lemma select_matches (pat : str) (p q : Path) (n : node) :
  In q (Glob.select fnmatchcase [Glob.PRec; final_part pat] p n) ->
  exists dirs name,
    q = below p (dirs ++ [name]) /\ name_matches fnmatchcase pat name = true.
Proof.
  intros Hq. apply select_recursive_In in Hq. destruct Hq as [d [Hd Hq]].
  apply iterate_directories_below in Hd. destruct Hd as [dirs Hd].
  unfold final_part, name_matches in *.
  destruct (Glob.is_wildcard_pattern pat); cbn [Glob.select] in Hq.
  - apply in_flat_map in Hq. destruct Hq as [e [_ Hq]].
    cbn [Glob.dironly negb orb andb] in Hq.
    destruct (fnmatchcase (fst e) pat) eqn:E; [|destruct Hq].
    destruct Hq as [<-|[]]. exists dirs, (fst e). split; [|exact E].
    now rewrite Hd, joinpath_below, below_below.
  - destruct (child pat (snd d)) as [c|]; [|destruct Hq].
    cbn [Glob.dironly negb orb] in Hq. destruct Hq as [<-|[]].
    exists dirs, pat. split; [|now apply str_eqb_eq].
    now rewrite Hd, joinpath_below, below_below.
Qed.

Lemma dedupe_NoDup (l : list Path) : forall seen, NoDup (Glob.dedupe seen l).
Proof.
  induction l as [|x l IH]; intros seen; simpl.
  - constructor.
  - destruct (existsb (path_eqb x) seen); [apply IH|].
    constructor; [|apply IH]. rewrite dedupe_In. simpl. tauto.
Qed.

Lemma make_selector_recursive (parts : list str) (sel : list Glob.part) :
  Glob.make_selector (lit "**" :: parts) = Ok sel ->
  exists succ, sel = Glob.PRec :: succ.
Proof.
  cbn [Glob.make_selector].
  change (str_eqb (lit "**") []) with false.
  change (str_eqb (lit "**") (lit "**")) with true. cbv iota.
  destruct (Glob.make_selector parts) as [succ|e]; cbn [rbind]; intros H;
    [|discriminate H].
  injection H as <-. now eexists.
Qed.

Lemma rglob_shape (fs : filesystem) (directory : Path) (pattern : str)
    (enumerated : list Path) :
  Glob.rglob fnmatchcase fs directory pattern = Ok enumerated ->
  enumerated = []
  \/ exists succ n,
       enumerated = Glob.select fnmatchcase (Glob.PRec :: succ) directory n.
Proof.
  unfold Glob.rglob. intros H.
  destruct (Glob.parse_pattern pattern) as [parts|e]; [|discriminate H].
  cbn [rbind] in H.
  destruct (Glob.make_selector (lit "**" :: parts)) as [sel|e] eqn:E;
    [|discriminate H].
  apply make_selector_recursive in E. destruct E as [succ ->]. cbn [rbind] in H.
  destruct (find_node fs directory) as [[|es]|]; injection H as <-; auto.
  right. now exists succ, (Dir es).
Qed.

End Returned.

Lemma relative_to_below (base_dir : Path) (rel : list str) :
  is_relative_to (below base_dir rel) base_dir = true
  /\ relative_to (below base_dir rel) base_dir = Ok (mkPath false rel).
Proof.
  assert (H : is_relative_to (below base_dir rel) base_dir = true).
  { unfold is_relative_to, below. simpl. now rewrite eqb_reflx, prefixb_refl. }
  split; [exact H|]. unfold relative_to. rewrite H. unfold below. simpl.
  do 2 f_equal. rewrite skipn_app, skipn_all, Nat.sub_diag. reflexivity.
Qed.

(** X5. Every path that [gather_text_files] returns lies below the
    directory it was given, whatever the pattern and the sort mode; so
    [is_relative_to] holds for it and [build_combined_text], called as
    [main] calls it, shows the path relative to the base directory in the
    header, never the absolute path. *)
Theorem gather_text_files_below
    (fnmatchcase : str -> str -> bool) (lower : str -> str)
    (fs : filesystem) (directory : Path) (pattern sort : str) (files : list Path) :
  gather_text_files fnmatchcase lower fs directory pattern sort = Ok files ->
  forall f, In f files ->
    exists rel,
      f = below directory rel
      /\ is_relative_to f directory = true
      /\ relative_to f directory = Ok (mkPath false rel)
      /\ (forall encoding,
            spec_contribution fs directory encoding f
            = lit "### " ++ as_posix (mkPath false rel) ++ lit " ###" ++ [NL; NL]
              ++ spec_body fs f encoding ++ SEPARATOR).
Proof.
  intros Hfiles f Hf. apply gather_text_files_perm in Hfiles.
  destruct Hfiles as [enumerated [Hglob Hperm]].
  apply (Permutation_in _ (Permutation_sym Hperm)) in Hf.
  apply rglob_shape in Hglob. destruct Hglob as [->|[succ [n ->]]]; [destruct Hf|].
  apply select_below in Hf. destruct Hf as [rel ->]. exists rel.
  destruct (relative_to_below directory rel) as [Hrel Hto].
  repeat split; trivial.
  intros encoding. unfold spec_contribution, spec_shown_path. rewrite Hrel.
  unfold below. simpl. do 3 f_equal.
  rewrite skipn_app, skipn_all, Nat.sub_diag. reflexivity.
Qed.

Lemma gather_text_files_below_witness :
  exists rel,
    below Sample.base [lit "z"; lit "a.txt"] = below Sample.base rel
    /\ is_relative_to (below Sample.base [lit "z"; lit "a.txt"]) Sample.base = true
    /\ relative_to (below Sample.base [lit "z"; lit "a.txt"]) Sample.base
       = Ok (mkPath false rel)
    /\ (forall encoding,
          spec_contribution Sample.deep_fs Sample.base encoding
            (below Sample.base [lit "z"; lit "a.txt"])
          = lit "### " ++ as_posix (mkPath false rel) ++ lit " ###" ++ [NL; NL]
            ++ spec_body Sample.deep_fs (below Sample.base [lit "z"; lit "a.txt"])
                 encoding
            ++ SEPARATOR).
Proof.
  apply (@gather_text_files_below Sample.fnmatchcase Sample.lower Sample.deep_fs
           Sample.base (lit "*.txt") (lit "name")
           [below Sample.base [lit "z"; lit "a.txt"];
            below Sample.base [lit "a"; lit "a.txt"];
            below Sample.base [lit "a"; lit "B.txt"];
            below Sample.base [lit "c.txt"]]).
  - reflexivity.
  - simpl. now left.
Defined.

(** X6. With a one-component pattern, every path that
    [gather_text_files] returns has a final component that matches the
    pattern, at some depth below the directory. *)
Theorem gather_text_files_matches
    (fnmatchcase : str -> str -> bool) (lower : str -> str)
    (fs : filesystem) (directory : Path) (pat sort : str) (files : list Path) :
  Glob.parse_pattern pat = Ok [pat] ->
  Glob.has_double_star pat = false ->
  gather_text_files fnmatchcase lower fs directory pat sort = Ok files ->
  forall f, In f files ->
    exists dirs name,
      f = below directory (dirs ++ [name])
      /\ path_name f = name
      /\ name_matches fnmatchcase pat name = true.
Proof.
  intros Hparse Hstar Hfiles f Hf. apply gather_text_files_perm in Hfiles.
  destruct Hfiles as [enumerated [Hglob Hperm]].
  apply (Permutation_in _ (Permutation_sym Hperm)) in Hf.
  unfold Glob.rglob in Hglob. rewrite Hparse in Hglob. cbn [rbind] in Hglob.
  rewrite (make_selector_component Hparse Hstar) in Hglob. cbn [rbind] in Hglob.
  assert (Hsel : enumerated = []
                 \/ exists n, enumerated
                              = Glob.select fnmatchcase [Glob.PRec; final_part pat]
                                  directory n).
  { destruct (find_node fs directory) as [[|es]|];
      [left|right; exists (Dir es)|left]; congruence. }
  clear Hglob. destruct Hsel as [->|[n ->]]; [destruct Hf|].
  apply select_matches in Hf. destruct Hf as [dirs [name [-> Hmatch]]].
  exists dirs, name. repeat split; trivial.
  unfold path_name, below. simpl. rewrite app_assoc. apply last_last.
Qed.

Lemma gather_text_files_matches_witness :
  exists dirs name,
    below Sample.base [lit "z"; lit "a.txt"] = below Sample.base (dirs ++ [name])
    /\ path_name (below Sample.base [lit "z"; lit "a.txt"]) = name
    /\ name_matches Sample.fnmatchcase (lit "*.txt") name = true.
Proof.
  apply (@gather_text_files_matches Sample.fnmatchcase Sample.lower Sample.deep_fs
           Sample.base (lit "*.txt") (lit "name")
           [below Sample.base [lit "z"; lit "a.txt"];
            below Sample.base [lit "a"; lit "a.txt"];
            below Sample.base [lit "a"; lit "B.txt"];
            below Sample.base [lit "c.txt"]]).
  - reflexivity.
  - reflexivity.
  - reflexivity.
  - simpl. now left.
Defined.

(** X7. [gather_text_files] returns no path twice, whatever the pattern
    and the sort mode. *)
Theorem gather_text_files_distinct
    (fnmatchcase : str -> str -> bool) (lower : str -> str)
    (fs : filesystem) (directory : Path) (pattern sort : str) (files : list Path) :
  gather_text_files fnmatchcase lower fs directory pattern sort = Ok files ->
  NoDup files.
Proof.
  intros Hfiles. apply gather_text_files_perm in Hfiles.
  destruct Hfiles as [enumerated [Hglob Hperm]].
  apply (Permutation_NoDup Hperm).
  apply rglob_shape in Hglob. destruct Hglob as [->|[succ [n ->]]].
  - constructor.
  - cbn [Glob.select]. apply dedupe_NoDup.
Qed.

Lemma gather_text_files_distinct_witness :
  NoDup [below Sample.base [lit "z"; lit "a.txt"];
         below Sample.base [lit "a"; lit "a.txt"];
         below Sample.base [lit "a"; lit "B.txt"];
         below Sample.base [lit "c.txt"]].
Proof.
  apply (@gather_text_files_distinct Sample.fnmatchcase Sample.lower Sample.deep_fs
           Sample.base (lit "*.txt") (lit "name")).
  reflexivity.
Defined.

(** ** Sorting by a key that may fail *)

Lemma StronglySorted_weaken {X : Type} (R R' : X -> X -> Prop) (l : list X) :
  (forall x y, R x y -> R' x y) -> StronglySorted R l -> StronglySorted R' l.
Proof.
  intros HR Hs. induction Hs as [|x l Hs IH Hall]; constructor; trivial.
  eapply Forall_impl; [|exact Hall]. intros y. apply HR.
Qed.

Section ResultKey.

Context {K X : Type}.
Variable lt : K -> K -> bool.

Hypothesis lt_asym : forall a b, lt a b = true -> lt b a = false.
Hypothesis le_trans :
  forall a b c, lt b a = false -> lt c b = false -> lt c a = false.

Variable key : X -> result K.

Lemma decorate_keys (l : list X) :
  forall kxs, Sort.decorate key l = Ok kxs ->
              Forall (fun e => key (snd e) = Ok (fst e)) kxs.
Proof.
  induction l as [|x l IH]; simpl; intros kxs H.
  - injection H as <-. constructor.
  - destruct (key x) as [k|e] eqn:Ek; [|discriminate H]. simpl in H.
    destruct (Sort.decorate key l) as [kxs'|e]; [|discriminate H].
    simpl in H. injection H as <-. constructor; [exact Ek|now apply IH].
Qed.

Lemma sort_by_key_sorted (l l' : list X) :
  Sort.sort_by_key lt key l = Ok l' ->
  StronglySorted
    (fun x y => exists kx ky, key x = Ok kx /\ key y = Ok ky /\ lt ky kx = false) l'.
Proof.
  unfold Sort.sort_by_key. intros H.
  destruct (Sort.decorate key l) as [kxs|e] eqn:E; [|discriminate H].
  simpl in H. injection H as <-.
  assert (Hk : Forall (fun e => key (snd e) = Ok (fst e)) (Sort.sort_keyed lt kxs))
    by (eapply Permutation_Forall; [apply sort_keyed_perm|eapply decorate_keys, E]).
  pose proof (@sort_keyed_sorted K X lt lt_asym le_trans kxs) as Hs.
  cbv zeta in Hs.
  induction Hs as [|e l0 Hs IH Hall]; simpl; [constructor|].
  inversion Hk as [|? ? He Hl]; subst.
  constructor; [now apply IH|].
  apply Forall_map. rewrite Forall_forall in *. intros z Hz.
  exists (fst e), (fst z). repeat split; auto.
Qed.

Lemma sort_by_key_stable (same : K -> bool) (l l' : list X) :
  (forall a b, same a = true -> same b = true -> lt a b = false) ->
  Sort.sort_by_key lt key l = Ok l' ->
  filter (fun x => match key x with Ok k => same k | Raise _ => false end) l'
  = filter (fun x => match key x with Ok k => same k | Raise _ => false end) l.
Proof.
  unfold Sort.sort_by_key. intros Hsame H.
  destruct (Sort.decorate key l) as [kxs|e] eqn:E; [|discriminate H].
  simpl in H. injection H as <-.
  assert (Hun : forall m, Forall (fun e => key (snd e) = Ok (fst e)) m ->
            filter (fun x => match key x with Ok k => same k | Raise _ => false end)
                   (List.map snd m)
            = List.map snd (filter (fun e => same (fst e)) m)).
  { induction 1 as [|e m He _ IH]; simpl; [reflexivity|].
    rewrite He, IH. now destruct (same (fst e)). }
  rewrite Hun
    by (eapply Permutation_Forall; [apply sort_keyed_perm|eapply decorate_keys, E]).
  rewrite (sort_keyed_filter lt same kxs Hsame).
  rewrite <- Hun by (eapply decorate_keys, E).
  now rewrite (decorate_snd _ _ E).
Qed.

Lemma sort_by_key_returns (l : list X) :
  (forall x, In x l -> exists k, key x = Ok k) ->
  exists l', Sort.sort_by_key lt key l = Ok l'.
Proof.
  intros Hkey. unfold Sort.sort_by_key.
  assert (Hd : exists kxs, Sort.decorate key l = Ok kxs).
  { induction l as [|x l IH]; simpl; [now eexists|].
    destruct (Hkey x (or_introl eq_refl)) as [k ->]. simpl.
    destruct IH as [kxs ->]; [intros y Hy; apply Hkey; now right|].
    simpl. now eexists. }
  destruct Hd as [kxs ->]. simpl. now eexists.
Qed.

Lemma sort_by_key_raises (before : list X) (x : X) (after : list X) (e : exn) :
  (forall y, In y before -> exists k, key y = Ok k) ->
  key x = Raise e ->
  Sort.sort_by_key lt key (before ++ x :: after) = Raise e.
Proof.
  intros Hbefore Hx. unfold Sort.sort_by_key.
  assert (Hd : Sort.decorate key (before ++ x :: after) = Raise e).
  { induction before as [|y before IH]; simpl.
    - now rewrite Hx.
    - destruct (Hbefore y (or_introl eq_refl)) as [k ->]. simpl.
      rewrite IH; [reflexivity|]. intros z Hz. apply Hbefore. now right. }
  now rewrite Hd.
Qed.

End ResultKey.

Lemma Z_ltb_asym (a b : Z) : (a <? b) = true -> (b <? a) = false.
Proof. intros H. apply Z.ltb_lt in H. apply Z.ltb_ge. lia. Qed.

Lemma Z_le_trans (a b c : Z) :
  (b <? a) = false -> (c <? b) = false -> (c <? a) = false.
Proof. rewrite !Z.ltb_ge. lia. Qed.

(** ** File Collector: the order by time *)

Lemma gather_by_stat
    (fnmatchcase : str -> str -> bool) (lower : str -> str)
    (fs : filesystem) (directory : Path) (pattern sort : str)
    (proj : stat_result -> Z) (enumerated : list Path) :
  (sort = lit "mtime" /\ proj = st_mtime) \/ (sort = lit "ctime" /\ proj = st_ctime) ->
  Glob.rglob fnmatchcase fs directory pattern = Ok enumerated ->
  gather_text_files fnmatchcase lower fs directory pattern sort
  = Sort.sort_by_key Z.ltb
      (fun p => rbind (fs_stat fs p) (fun st => Ok (proj st))) enumerated.
Proof.
  intros Hsort Hglob. unfold gather_text_files. rewrite Hglob. cbn [rbind].
  destruct Hsort as [[-> ->]|[-> ->]]; reflexivity.
Qed.

(** X8. With the sort mode [mtime] (or [ctime]), when every enumerated
    file can be examined, [gather_text_files] returns the enumerated files
    in ascending order of modification (or change) time, and files with
    equal times keep their enumeration order. *)
Theorem gather_text_files_by_time
    (fnmatchcase : str -> str -> bool) (lower : str -> str)
    (fs : filesystem) (directory : Path) (pattern sort : str)
    (proj : stat_result -> Z) (enumerated : list Path) :
  (sort = lit "mtime" /\ proj = st_mtime) \/ (sort = lit "ctime" /\ proj = st_ctime) ->
  Glob.rglob fnmatchcase fs directory pattern = Ok enumerated ->
  (forall p, In p enumerated -> exists st, fs_stat fs p = Ok st) ->
  exists files,
    gather_text_files fnmatchcase lower fs directory pattern sort = Ok files
    /\ Permutation enumerated files
    /\ StronglySorted
         (fun p q => exists sp sq,
              fs_stat fs p = Ok sp /\ fs_stat fs q = Ok sq /\ proj sp <= proj sq)
         files
    /\ forall t,
         filter (fun p => match fs_stat fs p with
                          | Ok st => proj st =? t
                          | Raise _ => false
                          end) files
         = filter (fun p => match fs_stat fs p with
                            | Ok st => proj st =? t
                            | Raise _ => false
                            end) enumerated.
Proof.
  intros Hsort Hglob Hstat.
  rewrite (@gather_by_stat fnmatchcase lower fs directory pattern sort proj
             enumerated Hsort Hglob).
  set (key := fun p => rbind (fs_stat fs p) (fun st => Ok (proj st))).
  destruct (@sort_by_key_returns Z Path Z.ltb key enumerated) as [files Hfiles].
  { intros p Hp. destruct (Hstat p Hp) as [st Hst]. exists (proj st).
    unfold key. now rewrite Hst. }
  exists files. split; [exact Hfiles|]. split; [|split].
  - exact (sort_by_key_perm _ _ _ Hfiles).
  - eapply StronglySorted_weaken;
      [|exact (@sort_by_key_sorted Z Path Z.ltb Z_ltb_asym Z_le_trans key
                 enumerated files Hfiles)].
    intros p q (kp & kq & Hp & Hq & Hle). unfold key in Hp, Hq.
    destruct (fs_stat fs p) as [sp|]; [|discriminate Hp].
    destruct (fs_stat fs q) as [sq|]; [|discriminate Hq].
    simpl in Hp, Hq. injection Hp as <-. injection Hq as <-.
    exists sp, sq. repeat split; trivial. apply Z.ltb_ge in Hle. lia.
  - intros t.
    assert (Hpred : forall p,
               match fs_stat fs p with Ok st => proj st =? t | Raise _ => false end
               = match key p with Ok k => k =? t | Raise _ => false end)
      by (intros p; unfold key; now destruct (fs_stat fs p)).
    rewrite !(filter_ext _ _ Hpred).
    apply (@sort_by_key_stable Z Path Z.ltb key (fun k => k =? t) enumerated files);
      [|exact Hfiles].
    intros a b Ha Hb. apply Z.eqb_eq in Ha, Hb. subst. apply Z.ltb_irrefl.
Qed.

Lemma gather_text_files_by_time_witness :
  exists files,
    gather_text_files Sample.fnmatchcase Sample.lower Sample.timed_fs Sample.base
      (lit "*.txt") (lit "mtime") = Ok files
    /\ Permutation
         [below Sample.base [lit "c.txt"];
          below Sample.base [lit "z"; lit "a.txt"];
          below Sample.base [lit "a"; lit "B.txt"];
          below Sample.base [lit "a"; lit "a.txt"]]
         files
    /\ StronglySorted
         (fun p q => exists sp sq,
              fs_stat Sample.timed_fs p = Ok sp
              /\ fs_stat Sample.timed_fs q = Ok sq
              /\ st_mtime sp <= st_mtime sq)
         files
    /\ forall t,
         filter (fun p => match fs_stat Sample.timed_fs p with
                          | Ok st => st_mtime st =? t
                          | Raise _ => false
                          end) files
         = filter (fun p => match fs_stat Sample.timed_fs p with
                            | Ok st => st_mtime st =? t
                            | Raise _ => false
                            end)
             [below Sample.base [lit "c.txt"];
              below Sample.base [lit "z"; lit "a.txt"];
              below Sample.base [lit "a"; lit "B.txt"];
              below Sample.base [lit "a"; lit "a.txt"]].
Proof.
  apply (@gather_text_files_by_time Sample.fnmatchcase Sample.lower Sample.timed_fs
           Sample.base (lit "*.txt") (lit "mtime") st_mtime).
  - left. split; reflexivity.
  - reflexivity.
  - intros p _. eexists. reflexivity.
Defined.

(** X9. With the sort mode [mtime] or [ctime], when examining an
    enumerated file fails and the files enumerated before it could be
    examined, [gather_text_files] raises that failure and returns no
    list. *)
Theorem gather_text_files_stat_failure
    (fnmatchcase : str -> str -> bool) (lower : str -> str)
    (fs : filesystem) (directory : Path) (pattern sort : str)
    (before : list Path) (p : Path) (after : list Path) (e : exn) :
  sort = lit "mtime" \/ sort = lit "ctime" ->
  Glob.rglob fnmatchcase fs directory pattern = Ok (before ++ p :: after) ->
  (forall q, In q before -> exists st, fs_stat fs q = Ok st) ->
  fs_stat fs p = Raise e ->
  gather_text_files fnmatchcase lower fs directory pattern sort = Raise e.
Proof.
  intros Hsort Hglob Hbefore Hp.
  assert (Hproj : exists proj,
             (sort = lit "mtime" /\ proj = st_mtime)
             \/ (sort = lit "ctime" /\ proj = st_ctime))
    by (destruct Hsort; eexists; eauto).
  destruct Hproj as [proj Hproj].
  rewrite (@gather_by_stat fnmatchcase lower fs directory pattern sort proj
             (before ++ p :: after) Hproj Hglob).
  apply sort_by_key_raises.
  - intros q Hq. destruct (Hbefore q Hq) as [st ->]. now eexists.
  - now rewrite Hp.
Qed.

Lemma gather_text_files_stat_failure_witness :
  gather_text_files Sample.fnmatchcase Sample.lower Sample.racing_fs Sample.base
    (lit "*.txt") (lit "mtime") = Raise Sample.vanished.
Proof.
  apply (@gather_text_files_stat_failure Sample.fnmatchcase Sample.lower
           Sample.racing_fs Sample.base (lit "*.txt") (lit "mtime")
           [below Sample.base [lit "c.txt"]]
           (below Sample.base [lit "z"; lit "a.txt"])
           [below Sample.base [lit "a"; lit "B.txt"];
            below Sample.base [lit "a"; lit "a.txt"]]).
  - now left.
  - reflexivity.
  - intros q [<-|[]]. eexists. reflexivity.
  - reflexivity.
Defined.

(** ** Credential Provider, for every environment *)

Lemma run_only_calls {A : Type} (P : call -> Prop) (p : prog A) :
  only_calls P p ->
  forall o tr, exists new, fst (run_from o tr p) = tr ++ new /\ Forall P new.
Proof.
  induction p as [a|e|c k IH]; intros Hp o tr; cbn [run_from].
  - exists []. split; [now rewrite app_nil_r|constructor].
  - exists []. split; [now rewrite app_nil_r|constructor].
  - destruct Hp as [Hc Hk]. destruct (o tr c) as [x|e].
    + destruct (IH x (Hk x) o (tr ++ [c])) as [new [Hrun Hnew]].
      exists (c :: new). split; [now rewrite Hrun, <- app_assoc|].
      now constructor.
    + exists [c]. split; [reflexivity|]. now repeat constructor.
Qed.

Lemma get_credentials_only_calls :
  only_calls (fun c => credential_call c = true) get_credentials.
Proof.
  unfold get_credentials, interactive_flow. cbn [pbind perform only_calls].
  split; [reflexivity|]. intros [|]; cbn [pbind perform only_calls].
  - split; [reflexivity|]. intros c.
    destruct (cred_valid c); cbn [negb pbind only_calls]; [exact I|].
    destruct (cred_expired c && truthy (cred_refresh_token c));
      cbn [pbind perform only_calls].
    + split; [reflexivity|]. intros c'. split; [reflexivity|]. intros _. exact I.
    + split; [reflexivity|]. intros [|]; cbn [negb pbind perform only_calls].
      * split; [reflexivity|]. intros _. split; [reflexivity|]. intros c'.
        split; [reflexivity|]. intros _. exact I.
      * exact I.
  - split; [reflexivity|]. intros [|]; cbn [negb pbind perform only_calls].
    + split; [reflexivity|]. intros _. split; [reflexivity|]. intros c'.
      split; [reflexivity|]. intros _. exact I.
    + exact I.
Qed.

(** X10. Whatever the environment answers and however the call ends,
    [get_credentials] only tests for, reads and writes [token.json] and
    [credentials.json], refreshes a credential or runs the consent flow:
    it never calls the document service, never prints and writes no other
    file. *)
Theorem get_credentials_stays_local (o : oracle) :
  Forall (fun c => credential_call c = true) (fst (run o get_credentials))
  /\ Forall (fun c => is_docs_call c = false) (fst (run o get_credentials))
  /\ forall name content,
       In (WriteTextFile name content) (fst (run o get_credentials)) ->
       name = TOKEN_JSON.
Proof.
  destruct (@run_only_calls _ _ _ get_credentials_only_calls o [])
    as [new [Hrun Hnew]].
  unfold run. rewrite Hrun. cbn [app]. split; [exact Hnew|]. split.
  - eapply Forall_impl; [|exact Hnew]. intros [] H; trivial; discriminate H.
  - intros name content Hin. rewrite Forall_forall in Hnew.
    apply Hnew in Hin. cbn [credential_call] in Hin. now apply str_eqb_eq in Hin.
Qed.

Ltac split_run H :=
  repeat (cbn [run_from pbind perform app negb andb] in H;
          match type of H with
          | context [match ?o ?tr ?c with Ok _ => _ | Raise _ => _ end] =>
              let E := fresh "E" in
              let x := fresh "x" in
              destruct (o tr c) as [x|?] eqn:E;
              [let T := type of x in
               let T' := eval cbn in T in
               match T' with
               | bool => destruct x
               | unit => destruct x
               | _ => idtac
               end|]
          | context [if ?b then _ else _] =>
              let E := fresh "E" in destruct b eqn:E
          end).

(** X11. Whenever [get_credentials] returns a credential, it is either
    the credential loaded from [token.json], found valid, with nothing
    written, or a credential that the last-but-one call obtained (a
    refresh, or the consent flow) and that the last call wrote to
    [token.json]: after a return the token file never holds another
    credential than the one returned, and nothing is written before it is
    obtained. *)
Theorem get_credentials_returns (o : oracle) (tr : list call) (c : credentials) :
  run o get_credentials = (tr, Ok c) ->
  (tr = [OsPathExists TOKEN_JSON; FromAuthorizedUserFile TOKEN_JSON SCOPES]
   /\ o [OsPathExists TOKEN_JSON] (FromAuthorizedUserFile TOKEN_JSON SCOPES) = Ok c
   /\ cred_valid c = true)
  \/ (exists before c0,
        tr = before ++ [CredsRefresh c0; WriteTextFile TOKEN_JSON (cred_to_json c)]
        /\ o before (CredsRefresh c0) = Ok c
        /\ Forall (fun x => is_write x = false) (before ++ [CredsRefresh c0]))
  \/ (exists before,
        tr = before ++ [RunLocalServer 0; WriteTextFile TOKEN_JSON (cred_to_json c)]
        /\ o before (RunLocalServer 0) = Ok c
        /\ Forall (fun x => is_write x = false) (before ++ [RunLocalServer 0])).
Proof.
  intros H. unfold run, get_credentials, interactive_flow in H.
  split_run H; try discriminate H; injection H as <- <-.
  - right. left. eexists [_; _], _. repeat split; [eassumption|repeat constructor].
  - right. right. eexists [_; _; _; _].
    repeat split; [eassumption|repeat constructor].
  - left. repeat split; trivial. now apply negb_false_iff.
  - right. right. eexists [_; _; _].
    repeat split; [eassumption|repeat constructor].
Qed.

Lemma get_credentials_returns_witness :
  ([OsPathExists TOKEN_JSON; FromAuthorizedUserFile TOKEN_JSON SCOPES;
    CredsRefresh Sample.stale; WriteTextFile TOKEN_JSON (lit "{fresh}")]
   = [OsPathExists TOKEN_JSON; FromAuthorizedUserFile TOKEN_JSON SCOPES]
   /\ Sample.environment Sample.expired [OsPathExists TOKEN_JSON]
        (FromAuthorizedUserFile TOKEN_JSON SCOPES) = Ok Sample.fresh
   /\ cred_valid Sample.fresh = true)
  \/ (exists before c0,
        [OsPathExists TOKEN_JSON; FromAuthorizedUserFile TOKEN_JSON SCOPES;
         CredsRefresh Sample.stale; WriteTextFile TOKEN_JSON (lit "{fresh}")]
        = before ++ [CredsRefresh c0;
                     WriteTextFile TOKEN_JSON (cred_to_json Sample.fresh)]
        /\ Sample.environment Sample.expired before (CredsRefresh c0) = Ok Sample.fresh
        /\ Forall (fun x => is_write x = false) (before ++ [CredsRefresh c0]))
  \/ (exists before,
        [OsPathExists TOKEN_JSON; FromAuthorizedUserFile TOKEN_JSON SCOPES;
         CredsRefresh Sample.stale; WriteTextFile TOKEN_JSON (lit "{fresh}")]
        = before ++ [RunLocalServer 0;
                     WriteTextFile TOKEN_JSON (cred_to_json Sample.fresh)]
        /\ Sample.environment Sample.expired before (RunLocalServer 0) = Ok Sample.fresh
        /\ Forall (fun x => is_write x = false) (before ++ [RunLocalServer 0])).
Proof.
  apply (@get_credentials_returns (Sample.environment Sample.expired)).
  reflexivity.
Defined.

(** ** The whole run *)

Lemma only_calls_bind {A B : Type} (P : call -> Prop) (p : prog A) (f : A -> prog B) :
  only_calls P p -> (forall a, only_calls P (f a)) -> only_calls P (pbind p f).
Proof.
  intros Hp Hf. induction p as [a|e|c k IH]; cbn [pbind only_calls].
  - apply Hf.
  - exact I.
  - destruct Hp as [Hc Hk]. split; [exact Hc|]. intros x. now apply IH.
Qed.

Lemma only_calls_impl {A : Type} (P Q : call -> Prop) (p : prog A) :
  (forall c, P c -> Q c) -> only_calls P p -> only_calls Q p.
Proof.
  intros HPQ. induction p as [a|e|c k IH]; cbn [only_calls]; trivial.
  intros [Hc Hk]. split; [now apply HPQ|]. intros x. now apply IH.
Qed.

Lemma append_only_calls (doc_id text : str) (creds : credentials) :
  only_calls (fun c => is_print c = false) (append_text_to_doc doc_id text creds).
Proof.
  unfold append_text_to_doc. apply only_calls_bind.
  - cbn. split; [reflexivity|]. intros _. exact I.
  - intros _. apply only_calls_bind.
    + destruct (chunk_text text DEFAULT_MAX_LEN); exact I.
    + intros pieces. induction pieces as [|x rest IH]; cbn [for_each].
      * exact I.
      * apply only_calls_bind; [|intros _; exact IH].
        cbn. split; [reflexivity|]. intros _. exact I.
Qed.

Lemma get_credentials_no_print :
  only_calls (fun c => is_print c = false) get_credentials.
Proof.
  apply (@only_calls_impl _ (fun c => credential_call c = true));
    [|exact get_credentials_only_calls].
  intros [] H; trivial; discriminate H.
Qed.

(** The run of [append_text_to_doc] from any point, when it succeeds. *)
Lemma run_append_ok (o : oracle) (tr tr' : list call) (doc_id text : str)
    (creds : credentials) :
  run_from o tr (append_text_to_doc doc_id text creds) = (tr', Ok tt) ->
  exists pieces,
    chunk_text text DEFAULT_MAX_LEN = Ok pieces
    /\ concat pieces = text
    /\ tr' = tr ++ Build (lit "docs") (lit "v1") creds
                   :: List.map (update_request doc_id) pieces.
Proof.
  unfold append_text_to_doc.
  rewrite (run_from_perform_bind o (Build (lit "docs") (lit "v1") creds)).
  destruct (o tr (Build (lit "docs") (lit "v1") creds)) as [[]|e]; [|discriminate].
  destruct (@chunk_text_pieces text DEFAULT_MAX_LEN) as [pieces [Hpieces Hcat]];
    [unfold DEFAULT_MAX_LEN; lia|].
  rewrite Hpieces. cbn [lift pbind]. intros H. exists pieces.
  split; [reflexivity|]. split; [exact Hcat|].
  destruct (run_for_each_updates o doc_id pieces
              (tr ++ [Build (lit "docs") (lit "v1") creds]))
    as [[Hrun _]|(k & piece & e & _ & _ & _ & Hrun)];
    cbv zeta in Hrun; rewrite Hrun in H.
  - injection H as <-. now rewrite <- app_assoc.
  - discriminate H.
Qed.

Lemma inserted_text_app (a b : list call) :
  inserted_text (a ++ b) = inserted_text a ++ inserted_text b.
Proof. unfold inserted_text. now rewrite map_app, concat_app. Qed.

Lemma inserted_text_updates (doc_id : str) (pieces : list str) :
  inserted_text (List.map (update_request doc_id) pieces) = concat pieces.
Proof.
  unfold inserted_text. induction pieces as [|x rest IH]; simpl; [reflexivity|].
  now rewrite app_nil_r, IH.
Qed.

Lemma inserted_text_credentials (tr : list call) :
  Forall (fun c => credential_call c = true) tr -> inserted_text tr = [].
Proof.
  unfold inserted_text. induction 1 as [|c tr Hc _ IH]; simpl; [reflexivity|].
  rewrite IH, app_nil_r. destruct c; trivial; discriminate Hc.
Qed.

Lemma get_credentials_calls (o : oracle) :
  Forall (fun c => credential_call c = true) (fst (run o get_credentials)).
Proof.
  destruct (@run_only_calls _ _ _ get_credentials_only_calls o [])
    as [new [Hrun Hnew]].
  unfold run. now rewrite Hrun.
Qed.

Section WholeRun.

Variable fnmatchcase : str -> str -> bool.
Variable lower : str -> str.
Variable fs : filesystem.
Variable args : arguments.
Variable o : oracle.

Local Abbreviation base_dir := (fs_resolve fs (arg_directory args)).
Local Abbreviation the_build creds := (Build (lit "docs") (lit "v1") creds).

Lemma main_proceeds (files : list Path) :
  path_exists fs base_dir = true ->
  gather_text_files fnmatchcase lower fs base_dir (effective_pattern args)
    (arg_sort args) = Ok files ->
  files <> [] ->
  exists combined,
    build_combined_text fs files base_dir (arg_encoding args) = Ok combined
    /\ run o (main fnmatchcase lower fs args)
       = run_from o []
           (pbind get_credentials (fun creds =>
            pbind (create_google_doc (arg_title args) creds) (fun doc_id =>
            pbind (append_text_to_doc doc_id combined creds) (fun _ =>
            perform (PrintLine (document_url doc_id)))))).
Proof.
  intros Hdir Hfiles Hne. eexists. split; [apply build_combined_text_contributions|].
  unfold run, main. rewrite Hdir. cbn [negb]. rewrite Hfiles. cbn [lift pbind].
  destruct files as [|f rest]; [congruence|].
  rewrite build_combined_text_contributions. reflexivity.
Qed.

Lemma no_print_credentials (tr : list call) :
  Forall (fun c => credential_call c = true) tr ->
  Forall (fun c => is_print c = false) tr.
Proof.
  apply Forall_impl. intros [] H; trivial; discriminate H.
Qed.

Lemma main_run_cases (files : list Path) (tr : list call) (r : result unit) :
  path_exists fs base_dir = true ->
  gather_text_files fnmatchcase lower fs base_dir (effective_pattern args)
    (arg_sort args) = Ok files ->
  files <> [] ->
  run o (main fnmatchcase lower fs args) = (tr, r) ->
  (exists e, r = Raise e /\ Forall (fun c => is_print c = false) tr)
  \/ exists tr_creds creds doc_id pieces,
       run o get_credentials = (tr_creds, Ok creds)
       /\ o (tr_creds ++ [the_build creds]) (DocumentsCreate (arg_title args))
          = Ok doc_id
       /\ build_combined_text fs files base_dir (arg_encoding args)
          = Ok (concat pieces)
       /\ chunk_text (concat pieces) DEFAULT_MAX_LEN = Ok pieces
       /\ tr = tr_creds
               ++ [the_build creds; DocumentsCreate (arg_title args); the_build creds]
               ++ List.map (update_request doc_id) pieces
               ++ [PrintLine (document_url doc_id)]
       /\ r = match o (removelast tr) (PrintLine (document_url doc_id)) with
              | Ok _ => Ok tt
              | Raise e => Raise e
              end.
Proof.
  intros Hdir Hfiles Hne.
  destruct (main_proceeds Hdir Hfiles Hne) as [combined [Hcombined ->]].
  rewrite run_from_bind.
  pose proof (get_credentials_calls o) as Hlocal. unfold run in Hlocal.
  fold (run o get_credentials).
  destruct (run o get_credentials) as [tr1 [creds|e]] eqn:Hgc; unfold run in Hgc;
    rewrite Hgc in *; cbn [fst] in Hlocal.
  2:{ intros H. injection H as <- <-. left. exists e. split; [reflexivity|].
      now apply no_print_credentials. }
  apply no_print_credentials in Hlocal.
  unfold create_google_doc. cbn [pbind perform run_from].
  destruct (o tr1 (the_build creds)) as [[]|e].
  2:{ intros H. injection H as <- <-. left. exists e. split; [reflexivity|].
      apply Forall_app. split; [exact Hlocal|now repeat constructor]. }
  destruct (o (tr1 ++ [the_build creds]) (DocumentsCreate (arg_title args)))
    as [doc_id|e] eqn:Hcreate.
  2:{ intros H. injection H as <- <-. left. exists e. split; [reflexivity|].
      rewrite !Forall_app. repeat split; trivial; now repeat constructor. }
  rewrite run_from_bind.
  set (tr3 := (tr1 ++ [the_build creds]) ++ [DocumentsCreate (arg_title args)]).
  assert (H3 : Forall (fun c => is_print c = false) tr3)
    by (unfold tr3; rewrite !Forall_app; repeat split; trivial;
        now repeat constructor).
  destruct (@run_only_calls _ _ _ (append_only_calls doc_id combined creds) o tr3)
    as [new [Hfst Hnew]].
  destruct (run_from o tr3 (append_text_to_doc doc_id combined creds))
    as [tr4 [[]|e]] eqn:Happ; cbn [fst] in Hfst.
  2:{ intros H. injection H as <- <-. left. exists e. split; [reflexivity|].
      rewrite Hfst. apply Forall_app. now split. }
  apply run_append_ok in Happ. destruct Happ as [pieces [Hpieces [Hcat ->]]].
  cbn [perform run_from]. intros H. right.
  exists tr1, creds, doc_id, pieces.
  assert (Htr : tr = (tr3 ++ the_build creds :: List.map (update_request doc_id) pieces)
                     ++ [PrintLine (document_url doc_id)])
    by (destruct (o (tr3 ++ the_build creds :: List.map (update_request doc_id) pieces)
                    (PrintLine (document_url doc_id))); now injection H as <- _).
  repeat split.
  - exact Hcreate.
  - now rewrite Hcat.
  - now rewrite Hcat.
  - rewrite Htr. unfold tr3. rewrite <- !app_assoc. reflexivity.
  - rewrite Htr, removelast_last.
    destruct (o (tr3 ++ the_build creds :: List.map (update_request doc_id) pieces)
                (PrintLine (document_url doc_id))) as [[]|e];
      now injection H as _ <-.
Qed.

End WholeRun.

(** X12. When the resolved directory does not exist, [main] ends with
    [SystemExit] and the message [Directory not found: <path>], with exit
    status 1, before any file is looked for and without any call to the
    credential library or the document service. *)
Theorem main_missing_directory
    (fnmatchcase : str -> str -> bool) (lower : str -> str)
    (fs : filesystem) (args : arguments) (o : oracle) :
  path_exists fs (fs_resolve fs (arg_directory args)) = false ->
  run o (main fnmatchcase lower fs args)
  = ([], Raise (mkExn SystemExit
                  (lit "Directory not found: "
                   ++ as_posix (fs_resolve fs (arg_directory args)))))
  /\ exit_status (snd (run o (main fnmatchcase lower fs args))) = 1.
Proof.
  intros Hdir.
  assert (Hrun : run o (main fnmatchcase lower fs args)
                 = ([], Raise (mkExn SystemExit
                                 (lit "Directory not found: "
                                  ++ as_posix (fs_resolve fs (arg_directory args))))))
    by (unfold run, main; now rewrite Hdir).
  split; [exact Hrun|]. now rewrite Hrun.
Qed.

Lemma main_missing_directory_witness :
  run (Sample.environment Sample.cached)
      (main Sample.fnmatchcase Sample.lower Sample.fs Sample.args_nowhere)
  = ([], Raise (mkExn SystemExit (lit "Directory not found: /nowhere")))
  /\ exit_status (snd (run (Sample.environment Sample.cached)
                         (main Sample.fnmatchcase Sample.lower Sample.fs
                            Sample.args_nowhere))) = 1.
Proof.
  apply (@main_missing_directory Sample.fnmatchcase Sample.lower Sample.fs
           Sample.args_nowhere (Sample.environment Sample.cached)).
  reflexivity.
Defined.

Lemma sort_by_key_nil {K X : Type} (lt : K -> K -> bool) (key : X -> result K) :
  Sort.sort_by_key lt key [] = Ok [].
Proof. reflexivity. Qed.

(** X13. When the resolved path exists but is a regular file, and the
    pattern is one that the glob accepts, nothing is enumerated and
    [main] ends with [SystemExit] and the message
    [No files matched the pattern.], for every sort mode and without any
    call to the credential library or the document service. *)
Theorem main_directory_is_a_file
    (fnmatchcase : str -> str -> bool) (lower : str -> str)
    (fs : filesystem) (args : arguments) (o : oracle)
    (parts : list str) (sel : list Glob.part) :
  find_node fs (fs_resolve fs (arg_directory args)) = Some File ->
  Glob.parse_pattern (effective_pattern args) = Ok parts ->
  Glob.make_selector (lit "**" :: parts) = Ok sel ->
  gather_text_files fnmatchcase lower fs (fs_resolve fs (arg_directory args))
    (effective_pattern args) (arg_sort args) = Ok []
  /\ run o (main fnmatchcase lower fs args)
     = ([], Raise (mkExn SystemExit (lit "No files matched the pattern."))).
Proof.
  intros Hfile Hparse Hsel.
  assert (Hgather :
            gather_text_files fnmatchcase lower fs (fs_resolve fs (arg_directory args))
              (effective_pattern args) (arg_sort args) = Ok []).
  { unfold gather_text_files, Glob.rglob. rewrite Hparse. cbn [rbind].
    rewrite Hsel. cbn [rbind]. rewrite Hfile. cbn [rbind].
    destruct (str_eqb (arg_sort args) (lit "name")); [reflexivity|].
    destruct (str_eqb (arg_sort args) (lit "mtime")); [reflexivity|].
    destruct (str_eqb (arg_sort args) (lit "ctime")); reflexivity. }
  split; [exact Hgather|].
  unfold run, main, path_exists. rewrite Hfile. cbn [negb].
  rewrite Hgather. reflexivity.
Qed.

Lemma main_directory_is_a_file_witness :
  gather_text_files Sample.fnmatchcase Sample.lower Sample.fs
    (fs_resolve Sample.fs (arg_directory Sample.args_file))
    (effective_pattern Sample.args_file) (arg_sort Sample.args_file) = Ok []
  /\ run (Sample.environment Sample.cached)
         (main Sample.fnmatchcase Sample.lower Sample.fs Sample.args_file)
     = ([], Raise (mkExn SystemExit (lit "No files matched the pattern."))).
Proof.
  apply (@main_directory_is_a_file Sample.fnmatchcase Sample.lower Sample.fs
           Sample.args_file (Sample.environment Sample.cached)
           [lit "*.txt"] [Glob.PRec; Glob.PWild (lit "*.txt")]);
    reflexivity.
Defined.

(** X14. When files were found and [get_credentials] raises, [main]
    raises the same exception after the same calls: no document is
    created and nothing is sent to the document service. *)
Theorem main_credentials_failure
    (fnmatchcase : str -> str -> bool) (lower : str -> str)
    (fs : filesystem) (args : arguments) (o : oracle)
    (files : list Path) (tr : list call) (e : exn) :
  path_exists fs (fs_resolve fs (arg_directory args)) = true ->
  gather_text_files fnmatchcase lower fs (fs_resolve fs (arg_directory args))
    (effective_pattern args) (arg_sort args) = Ok files ->
  files <> [] ->
  run o get_credentials = (tr, Raise e) ->
  run o (main fnmatchcase lower fs args) = (tr, Raise e)
  /\ Forall (fun c => is_docs_call c = false) tr.
Proof.
  intros Hdir Hfiles Hne Hgc.
  destruct (@main_proceeds fnmatchcase lower fs args o files Hdir Hfiles Hne)
    as [combined [_ ->]].
  split.
  - rewrite run_from_bind. unfold run in Hgc. now rewrite Hgc.
  - pose proof (get_credentials_calls o) as Hlocal. rewrite Hgc in Hlocal.
    eapply Forall_impl; [|exact Hlocal]. intros [] H; trivial; discriminate H.
Qed.

Lemma main_credentials_failure_witness :
  run (Sample.environment Sample.unprovisioned)
      (main Sample.fnmatchcase Sample.lower Sample.fs Sample.args_txt)
  = ([OsPathExists TOKEN_JSON; OsPathExists CREDENTIALS_JSON], Raise MISSING_SECRETS)
  /\ Forall (fun c => is_docs_call c = false)
       [OsPathExists TOKEN_JSON; OsPathExists CREDENTIALS_JSON].
Proof.
  apply (@main_credentials_failure Sample.fnmatchcase Sample.lower Sample.fs
           Sample.args_txt (Sample.environment Sample.unprovisioned)
           [Sample.a_txt; Sample.b_txt]);
    [reflexivity|reflexivity|discriminate|reflexivity].
Defined.

Lemma inserted_text_whole_run (tr_creds : list call) (creds : credentials)
    (title doc_id : str) (pieces : list str) :
  Forall (fun c => credential_call c = true) tr_creds ->
  inserted_text
    (tr_creds
     ++ [Build (lit "docs") (lit "v1") creds; DocumentsCreate title;
         Build (lit "docs") (lit "v1") creds]
     ++ List.map (update_request doc_id) pieces
     ++ [PrintLine (document_url doc_id)])
  = concat pieces.
Proof.
  intros Hlocal. rewrite !inserted_text_app, inserted_text_updates.
  rewrite (inserted_text_credentials Hlocal). cbn. now rewrite app_nil_r.
Qed.

(** X15. When [main] ends normally, its calls are those of
    [get_credentials], then the creation of one document with the given
    title, then one update request per chunk of the assembled text, in
    order, for the document that was created, then the line with that
    document's address; and the texts inserted, put end to end, are
    exactly the text that [build_combined_text] assembled from the files
    gathered. *)
Theorem main_uploads_assembled_text
    (fnmatchcase : str -> str -> bool) (lower : str -> str)
    (fs : filesystem) (args : arguments) (o : oracle)
    (files : list Path) (tr : list call) :
  path_exists fs (fs_resolve fs (arg_directory args)) = true ->
  gather_text_files fnmatchcase lower fs (fs_resolve fs (arg_directory args))
    (effective_pattern args) (arg_sort args) = Ok files ->
  files <> [] ->
  run o (main fnmatchcase lower fs args) = (tr, Ok tt) ->
  exists tr_creds creds doc_id pieces,
    run o get_credentials = (tr_creds, Ok creds)
    /\ o (tr_creds ++ [Build (lit "docs") (lit "v1") creds])
         (DocumentsCreate (arg_title args)) = Ok doc_id
    /\ chunk_text (concat pieces) DEFAULT_MAX_LEN = Ok pieces
    /\ tr = tr_creds
            ++ [Build (lit "docs") (lit "v1") creds;
                DocumentsCreate (arg_title args);
                Build (lit "docs") (lit "v1") creds]
            ++ List.map (update_request doc_id) pieces
            ++ [PrintLine (document_url doc_id)]
    /\ build_combined_text fs files (fs_resolve fs (arg_directory args))
         (arg_encoding args) = Ok (inserted_text tr).
Proof.
  intros Hdir Hfiles Hne Hrun.
  destruct (@main_run_cases fnmatchcase lower fs args o files tr (Ok tt)
              Hdir Hfiles Hne Hrun)
    as [[e [Habs _]]|(tr_creds & creds & doc_id & pieces
                      & Hgc & Hcreate & Htext & Hpieces & Htr & _)];
    [discriminate Habs|].
  exists tr_creds, creds, doc_id, pieces. repeat split; trivial.
  rewrite Htext, Htr. f_equal. symmetry. apply inserted_text_whole_run.
  pose proof (get_credentials_calls o) as Hlocal. now rewrite Hgc in Hlocal.
Qed.

Lemma main_uploads_assembled_text_witness :
  exists tr_creds creds doc_id pieces,
    run (Sample.environment Sample.cached) get_credentials = (tr_creds, Ok creds)
    /\ Sample.environment Sample.cached
         (tr_creds ++ [Build (lit "docs") (lit "v1") creds])
         (DocumentsCreate (arg_title Sample.args_txt)) = Ok doc_id
    /\ chunk_text (concat pieces) DEFAULT_MAX_LEN = Ok pieces
    /\ fst (run (Sample.environment Sample.cached)
              (main Sample.fnmatchcase Sample.lower Sample.fs Sample.args_txt))
       = tr_creds
         ++ [Build (lit "docs") (lit "v1") creds;
             DocumentsCreate (arg_title Sample.args_txt);
             Build (lit "docs") (lit "v1") creds]
         ++ List.map (update_request doc_id) pieces
         ++ [PrintLine (document_url doc_id)]
    /\ build_combined_text Sample.fs [Sample.a_txt; Sample.b_txt]
         (fs_resolve Sample.fs (arg_directory Sample.args_txt))
         (arg_encoding Sample.args_txt)
       = Ok (inserted_text
               (fst (run (Sample.environment Sample.cached)
                       (main Sample.fnmatchcase Sample.lower Sample.fs
                          Sample.args_txt)))).
Proof.
  apply (@main_uploads_assembled_text Sample.fnmatchcase Sample.lower Sample.fs
           Sample.args_txt (Sample.environment Sample.cached)
           [Sample.a_txt; Sample.b_txt]);
    [reflexivity|reflexivity|discriminate|vm_compute; reflexivity].
Defined.



(** ** Credential Provider: failures of the library *)

(** X17. A failure of the credential library is the outcome of
    [get_credentials] and ends it at once: a [token.json] that cannot be
    loaded, a refresh that is refused and a consent flow that fails each
    raise their exception, [token.json] is not written, and a refused
    refresh is not followed by the consent flow. *)
Theorem get_credentials_propagates (o : oracle) (e : exn) :
  (o [] (OsPathExists TOKEN_JSON) = Ok true ->
   o [OsPathExists TOKEN_JSON] (FromAuthorizedUserFile TOKEN_JSON SCOPES) = Raise e ->
   run o get_credentials
   = ([OsPathExists TOKEN_JSON; FromAuthorizedUserFile TOKEN_JSON SCOPES], Raise e))
  /\ (forall c,
        o [] (OsPathExists TOKEN_JSON) = Ok true ->
        o [OsPathExists TOKEN_JSON] (FromAuthorizedUserFile TOKEN_JSON SCOPES) = Ok c ->
        cred_valid c = false ->
        cred_expired c = true ->
        truthy (cred_refresh_token c) = true ->
        o [OsPathExists TOKEN_JSON; FromAuthorizedUserFile TOKEN_JSON SCOPES]
          (CredsRefresh c) = Raise e ->
        run o get_credentials
        = ([OsPathExists TOKEN_JSON; FromAuthorizedUserFile TOKEN_JSON SCOPES;
            CredsRefresh c], Raise e))
  /\ (forall before,
        flow_required o before ->
        o before (OsPathExists CREDENTIALS_JSON) = Ok true ->
        o (before ++ [OsPathExists CREDENTIALS_JSON])
          (FromClientSecretsFile CREDENTIALS_JSON SCOPES) = Ok tt ->
        o (before ++ [OsPathExists CREDENTIALS_JSON;
                      FromClientSecretsFile CREDENTIALS_JSON SCOPES])
          (RunLocalServer 0) = Raise e ->
        run o get_credentials
        = (before ++ [OsPathExists CREDENTIALS_JSON;
                      FromClientSecretsFile CREDENTIALS_JSON SCOPES;
                      RunLocalServer 0], Raise e)).
Proof.
  split; [|split].
  - intros Hexists Hload. unfold run, get_credentials.
    run_step Hexists. run_step Hload. reflexivity.
  - intros c Hexists Hload Hvalid Hexpired Htoken Hrefresh.
    unfold run, get_credentials.
    run_step Hexists. run_step Hload. run_step Hvalid.
    cbn [negb]. rewrite Hexpired, Htoken. run_step Hrefresh. reflexivity.
  - intros before Hflow Hsecrets Hfile Hserver.
    rewrite (run_until_flow Hflow). unfold interactive_flow.
    run_step Hsecrets. run_step Hfile. rewrite <- app_assoc. run_step Hserver.
    rewrite <- app_assoc. reflexivity.
Qed.

Lemma get_credentials_propagates_witness :
  run (Sample.failing Sample.is_load Sample.cached) get_credentials
  = ([OsPathExists TOKEN_JSON; FromAuthorizedUserFile TOKEN_JSON SCOPES],
     Raise Sample.refused)
  /\ run (Sample.failing Sample.is_refresh Sample.expired) get_credentials
     = ([OsPathExists TOKEN_JSON; FromAuthorizedUserFile TOKEN_JSON SCOPES;
         CredsRefresh Sample.stale], Raise Sample.refused)
  /\ run (Sample.failing Sample.is_consent Sample.first_run) get_credentials
     = ([OsPathExists TOKEN_JSON; OsPathExists CREDENTIALS_JSON;
         FromClientSecretsFile CREDENTIALS_JSON SCOPES; RunLocalServer 0],
        Raise Sample.refused).
Proof.
  split; [|split].
  - apply (proj1 (get_credentials_propagates
                    (Sample.failing Sample.is_load Sample.cached) Sample.refused));
      reflexivity.
  - apply (proj1 (proj2 (get_credentials_propagates
                           (Sample.failing Sample.is_refresh Sample.expired)
                           Sample.refused)) Sample.stale);
      reflexivity.
  - apply (proj2 (proj2 (get_credentials_propagates
                           (Sample.failing Sample.is_consent Sample.first_run)
                           Sample.refused)) [OsPathExists TOKEN_JSON]);
      [left; split| | |]; reflexivity.
Defined.

(** ** Document Publisher: the size of a request *)

Lemma chunk_text_sizes (s : str) (L : Z) (cs : list str) :
  1 <= L -> chunk_text s L = Ok cs -> Forall (fun c => 1 <= len c <= L) cs.
Proof.
  intros HL H. destruct s as [|c0 s0] eqn:Es.
  - injection H as <-. constructor.
  - rewrite <- Es in *. assert (Hs : s <> []) by (rewrite Es; discriminate).
    pose proof (chunk_count_bounds Hs HL) as [Hn [Hlo Hhi]].
    rewrite (chunk_text_windows Hs HL) in H. injection H as <-.
    apply Forall_forall. intros c Hc. apply in_map_iff in Hc.
    destruct Hc as [k [<- Hk]]. apply in_seq in Hk.
    unfold len in *. rewrite length_firstn, length_skipn. nia.
Qed.

(** X18. Whatever the environment answers and however the call ends,
    every call of [append_text_to_doc] is the build of the service or an
    update request for the given document that inserts between 1 and
    45000 characters at the end: no request is empty and none exceeds the
    bound. *)
Theorem append_text_to_doc_request_sizes (o : oracle) (doc_id text : str)
    (creds : credentials) :
  Forall (fun c => c = Build (lit "docs") (lit "v1") creds
                   \/ exists piece,
                        c = update_request doc_id piece
                        /\ 1 <= len piece <= 45000)
         (fst (run o (append_text_to_doc doc_id text creds))).
Proof.
  set (P := fun c => c = Build (lit "docs") (lit "v1") creds
                     \/ exists piece,
                          c = update_request doc_id piece
                          /\ 1 <= len piece <= 45000).
  assert (Honly : only_calls P (append_text_to_doc doc_id text creds)).
  { unfold append_text_to_doc. apply only_calls_bind.
    - cbn. split; [now left|]. intros _. exact I.
    - intros _. destruct (chunk_text text DEFAULT_MAX_LEN) as [pieces|e] eqn:E;
        cbn [lift pbind]; [|exact I].
      apply chunk_text_sizes in E; [|unfold DEFAULT_MAX_LEN; lia].
      induction E as [|x rest Hx _ IH]; cbn [for_each]; [exact I|].
      apply only_calls_bind; [|intros _; exact IH].
      cbn. split; [|intros _; exact I]. right. exists x. split; [reflexivity|].
      exact Hx. }
  destruct (@run_only_calls _ _ _ Honly o []) as [new [Hrun Hnew]].
  unfold run. now rewrite Hrun.
Qed.
